(** * Streaming story player: scheduler, generation pipeline and playback engine

    A shallow embedding of [src/App.tsx], [src/components/StoryPlayer.tsx] and
    the text-generation service, followed by the properties proved about them.

    Conventions.  JavaScript strings are sequences of UTF-16 code units
    ([JSString]); JavaScript numbers that hold counts and indices are [nat],
    durations in seconds and clock readings are IEEE-754 doubles ([float]).
    React state is a record that every handler maps to its successor; a
    pending [await] is a record in a list of in-flight invocations that an
    event completes. *)

From Stdlib Require Import String Ascii.
From Stdlib Require Import ZArith NArith PeanoNat List Bool Lia.
From Stdlib Require Import Sorted Permutation Floats.
Import ListNotations.

Set Implicit Arguments.

(* ================================================================= *)
(** ** JavaScript built-ins used by the sources *)

Module JS.

Definition JSString := list N.

(** An ASCII literal as code units. *)
Fixpoint ofAscii (s : string) : JSString :=
  match s with
  | EmptyString => []
  | String c s' => N_of_ascii c :: ofAscii s'
  end.

(** [s.slice(start)] and [a.slice(start)]: a negative [start] counts from
    the end, and both ends are clamped to the sequence. *)
Definition sliceFrom {A} (start : Z) (s : list A) : list A :=
  let len := Z.of_nat (length s) in
  let from := if (start <? 0)%Z then Z.max (len + start) 0 else Z.min start len in
  skipn (Z.to_nat from) s.

(** [a.slice(0, n)] for a count [n]. *)
Definition sliceTo {A} (n : nat) (s : list A) : list A := firstn n s.

(** [a.join(sep)] on an array of strings. *)
Fixpoint join (sep : JSString) (parts : list JSString) : JSString :=
  match parts with
  | [] => []
  | [p] => p
  | p :: rest => p ++ sep ++ join sep rest
  end.

Fixpoint startsWith (needle hay : JSString) : bool :=
  match needle, hay with
  | [], _ => true
  | _ :: _, [] => false
  | a :: needle', b :: hay' => N.eqb a b && startsWith needle' hay'
  end.

(** [hay.includes(needle)]. *)
Fixpoint includes (needle hay : JSString) : bool :=
  startsWith needle hay ||
  match hay with
  | [] => false
  | _ :: hay' => includes needle hay'
  end.

(** A string is truthy when it is not empty. *)
Definition truthy (s : JSString) : bool :=
  match s with [] => false | _ :: _ => true end.

(** Decimal rendering of a non-negative integer, as a template literal
    interpolates it. *)
Fixpoint uintUnits (d : Decimal.uint) : JSString :=
  match d with
  | Decimal.Nil => []
  | Decimal.D0 d' => 48%N :: uintUnits d'
  | Decimal.D1 d' => 49%N :: uintUnits d'
  | Decimal.D2 d' => 50%N :: uintUnits d'
  | Decimal.D3 d' => 51%N :: uintUnits d'
  | Decimal.D4 d' => 52%N :: uintUnits d'
  | Decimal.D5 d' => 53%N :: uintUnits d'
  | Decimal.D6 d' => 54%N :: uintUnits d'
  | Decimal.D7 d' => 55%N :: uintUnits d'
  | Decimal.D8 d' => 56%N :: uintUnits d'
  | Decimal.D9 d' => 57%N :: uintUnits d'
  end.

Definition numToString (n : nat) : JSString := uintUnits (Nat.to_uint n).

(** [a.sort(cmp)]: the sort is stable, so its result is the one of a
    stable insertion sort.  An element moves past those that compare
    strictly below it. *)
Fixpoint insertBy {A} (cmp : A -> A -> Z) (x : A) (l : list A) : list A :=
  match l with
  | [] => [x]
  | y :: l' => if (0 <? cmp x y)%Z then y :: insertBy cmp x l' else x :: l
  end.

Definition sortBy {A} (cmp : A -> A -> Z) (l : list A) : list A :=
  fold_right (insertBy cmp) [] l.

(** [new Error(message)]. *)
Record Error := mkError { message : JSString }.

(** How an awaited promise ends. *)
Inductive Settled (T : Type) :=
| Fulfilled (v : T)
| Rejected (e : Error).
Arguments Rejected {T} e.

(** The behaviour of an external call: it settles [t] milliseconds after
    it was made, or never does. *)
Definition Promise (T : Type) := option (Z * Settled T).

End JS.
Import JS.

(* ================================================================= *)
(** ** Web Audio objects *)

Module WebAudio.

(** A decoded waveform; the player reads its [duration] in seconds. *)
Record AudioBuffer := mkAudioBuffer { duration : float }.

Inductive ContextState := running | suspended.

End WebAudio.
Import WebAudio.

(* ================================================================= *)
(** ** Shared types ([types.ts]) *)

Module Types.

Inductive TravelMode := WALKING | DRIVING.
Inductive StoryStyle := NOIR | CHILDREN | HISTORICAL | FANTASY.

Record RouteDetails := mkRouteDetails {
  startAddress : JSString;
  endAddress : JSString;
  distance : JSString;
  duration : JSString;
  durationSeconds : Z;
  travelMode : TravelMode;
  voiceName : JSString;
  storyStyle : StoryStyle
}.

Record StorySegment := mkStorySegment {
  index : nat;
  text : JSString;
  audioBuffer : option AudioBuffer
}.

Record AudioStory := mkAudioStory {
  totalSegmentsEstimate : nat;
  outline : list JSString;
  segments : list StorySegment
}.

(** The numeric enum [AppState].  Its declaration is not among the
    sources, so the values of the members the sources name are taken as
    they come: every definition that compares application states is
    parameterised by them. *)
Record AppStateEnum := mkAppStateEnum {
  PLANNING : Z;
  ROUTE_CONFIRMED : Z;
  GENERATING_INITIAL_SEGMENT : Z;
  READY_TO_PLAY : Z
}.

End Types.
Import Types.

(* ================================================================= *)
(** ** The generation service ([services/geminiService]) *)

Module GeminiService.

Definition TARGET_SEGMENT_DURATION_SEC : Z := 60.

(** [Math.max(1, Math.ceil(durationSeconds / 60))] for a whole number of
    seconds: the ceiling of the exact quotient. *)
Definition calculateTotalSegments (durationSeconds : Z) : nat :=
  Z.to_nat (Z.max 1 (- ((- durationSeconds) / TARGET_SEGMENT_DURATION_SEC))).

(* 繼續這段沉浸式的旅程。 *)
Definition outlinePadBeat : JSString :=
  [32380; 32396; 36889; 27573; 27785; 28024; 24335; 30340; 26053; 31243;
   12290]%N.

(* 繼續這段關於移動與探索的敘事。 *)
Definition outlineFallbackBeat : JSString :=
  [32380; 32396; 36889; 27573; 38364; 26044; 31227; 21205; 33287; 25506;
   32034; 30340; 25944; 20107; 12290]%N.

(* 無法生成章節文字。 *)
Definition msgEmptyText : JSString :=
  [28961; 27861; 29983; 25104; 31456; 31680; 25991; 23383; 12290]%N.

(* \n      前情提要（故事目前的進展）：\n      ... *)
Definition contextPromptHead : JSString :=
  [10; 32; 32; 32; 32; 32; 32; 21069; 24773; 25552; 35201; 65288; 25925;
   20107; 30446; 21069; 30340; 36914; 23637; 65289; 65306; 10; 32; 32; 32;
   32; 32; 32; 46; 46; 46]%N.

(*  \n      （請從上述內容自然地無縫銜接。不要重複內容。避免每次都使用「於是...」或「接著...」等過於重複的連接詞。）\n       *)
Definition contextPromptTail : JSString :=
  [32; 10; 32; 32; 32; 32; 32; 32; 65288; 35531; 24478; 19978; 36848;
   20839; 23481; 33258; 28982; 22320; 28961; 32299; 37532; 25509; 12290;
   19981; 35201; 37325; 35079; 20839; 23481; 12290; 36991; 20813; 27599;
   27425; 37117; 20351; 29992; 12300; 26044; 26159; 46; 46; 46; 12301;
   25110; 12300; 25509; 33879; 46; 46; 46; 12301; 31561; 36942; 26044;
   37325; 35079; 30340; 36899; 25509; 35422; 12290; 65289; 10; 32; 32; 32;
   32; 32; 32]%N.

(** [generateStoryOutline].  [reply] is what the model call and
    [JSON.parse] yield: [None] when the call fails, the answer is empty,
    is not JSON or is not an array, [Some outline] for a parsed array.
    Every failure is caught, so the promise always fulfils. *)
Definition generateStoryOutline (totalSegments : nat)
    (reply : option (list JSString)) : list JSString :=
  match reply with
  | Some ((_ :: _) as outline) =>
      let padded :=
        outline ++ repeat outlinePadBeat (totalSegments - length outline) in
      sliceTo totalSegments padded
  | _ => repeat outlineFallbackBeat totalSegments
  end.

(** The continuity paragraph of the prompt built by [generateSegment]. *)
Definition contextPrompt (segmentIndex : nat) (previousContext : JSString)
    : JSString :=
  let isFirst := Nat.eqb segmentIndex 1 in
  if negb isFirst
  then contextPromptHead ++ sliceFrom (-1000) previousContext ++ contextPromptTail
  else [].

(** [generateSegment] once the model call has settled.  [reply] carries
    [response.text?.trim()]; a failed call rejects with its own error and
    is rethrown. *)
Definition generateSegment (segmentIndex : nat)
    (reply : Settled (option JSString)) : Settled StorySegment :=
  match reply with
  | Fulfilled (Some ((_ :: _) as text)) =>
      Fulfilled (mkStorySegment segmentIndex text None)
  | Fulfilled _ => Rejected (mkError msgEmptyText)
  | Rejected e => Rejected e
  end.

End GeminiService.
Import GeminiService.

(* ================================================================= *)
(** ** The application component ([App.tsx]) *)

Module App.

(* 故事大綱生成逾時 *)
Definition msgOutlineTimeout : JSString :=
  [25925; 20107; 22823; 32177; 29983; 25104; 36926; 26178]%N.

(* 初始章節生成逾時 *)
Definition msgInitialTextTimeout : JSString :=
  [21021; 22987; 31456; 31680; 29983; 25104; 36926; 26178]%N.

(* 初始語音生成逾時 *)
Definition msgInitialAudioTimeout : JSString :=
  [21021; 22987; 35486; 38899; 29983; 25104; 36926; 26178]%N.

(* 無法啟動故事串流。請檢查地點資訊與網路連線後重試。 *)
Definition msgStartFailed : JSString :=
  [28961; 27861; 21855; 21205; 25925; 20107; 20018; 27969; 12290; 35531;
   27298; 26597; 22320; 40670; 36039; 35338; 33287; 32178; 36335; 36899;
   32218; 24460; 37325; 35430; 12290]%N.

(* 故事生成逾時。可能是您的路程較長，請再試一次。 *)
Definition msgStartTimedOut : JSString :=
  [25925; 20107; 29983; 25104; 36926; 26178; 12290; 21487; 33021; 26159;
   24744; 30340; 36335; 31243; 36611; 38263; 65292; 35531; 20877; 35430;
   19968; 27425; 12290]%N.

(* 繼續旅程，將情節引向終點。 *)
Definition defaultSegmentOutline : JSString :=
  [32380; 32396; 26053; 31243; 65292; 23559; 24773; 31680; 24341; 21521;
   32066; 40670; 12290]%N.

(* 開始這段旅程。 *)
Definition defaultFirstBeat : JSString :=
  [38283; 22987; 36889; 27573; 26053; 31243; 12290]%N.

(* 第  *)
Definition msgSegmentPrefix : JSString :=
  [31532; 32]%N.

(*  章節生成逾時 *)
Definition msgSegmentTextSuffix : JSString :=
  [32; 31456; 31680; 29983; 25104; 36926; 26178]%N.

(*  章節語音生成逾時 *)
Definition msgSegmentAudioSuffix : JSString :=
  [32; 31456; 31680; 35486; 38899; 29983; 25104; 36926; 26178]%N.
(** [withTimeout(promise, ms, errorMsg)]: the call is made before the timer
    is set, so the promise wins the race when it settles no later than [ms]
    after the call; a result that arrives later is never seen. *)
Definition withTimeout {T} (promise : Promise T) (ms : Z)
    (errorMsg : JSString) : Settled T :=
  match promise with
  | Some (t, result) =>
      if (t <=? ms)%Z then result else Rejected (mkError errorMsg)
  | None => Rejected (mkError errorMsg)
  end.

(** [promise.then(f)] for an [f] that may throw. *)
Definition andThen {S T} (f : Settled S -> Settled T) (promise : Promise S)
    : Promise T :=
  match promise with
  | Some (t, result) => Some (t, f result)
  | None => None
  end.

(** The component's state: the [useState] cells and the [useRef] flag. *)
Record State := mkState {
  appState : Z;
  route : option RouteDetails;
  story : option AudioStory;
  generationError : option JSString;
  isGeneratingRef : bool;
  isBackgroundGenerating : bool;
  currentPlayingIndex : nat
}.

(** The arguments of one [generateSegment] call. *)
Record TextRequest := mkTextRequest {
  req_route : RouteDetails;
  req_segmentIndex : nat;
  req_totalSegmentsEstimate : nat;
  req_segmentOutline : JSString;
  req_previousContext : JSString
}.

(** Where a running [generateNextSegment] is suspended. *)
Inductive Stage :=
| AwaitText
| AwaitAudio (segmentData : StorySegment).

Record Invocation := mkInvocation {
  inv_index : nat;
  inv_request : TextRequest;
  inv_stage : Stage
}.

(** The component together with the invocations of [generateNextSegment]
    that have started and not yet left their [finally] block. *)
Record System := mkSystem {
  app : State;
  pending : list Invocation
}.

Definition setGenerating (flag : bool) (st : State) : State :=
  mkState (appState st) (route st) (story st) (generationError st)
          flag flag (currentPlayingIndex st).

Definition setStory (f : option AudioStory -> option AudioStory)
    (st : State) : State :=
  mkState (appState st) (route st) (f (story st)) (generationError st)
          (isGeneratingRef st) (isBackgroundGenerating st)
          (currentPlayingIndex st).

Definition setCurrentPlayingIndex (i : nat) (st : State) : State :=
  mkState (appState st) (route st) (story st) (generationError st)
          (isGeneratingRef st) (isBackgroundGenerating st) i.

(** [story.segments.map(s => s.text).join(" ").slice(-3000)]. *)
Definition allPreviousText (story : AudioStory) : JSString :=
  sliceFrom (-3000) (join [32%N] (map text (segments story))).

(** [outline[i] || fallback]. *)
Definition beatOr (fallback : JSString) (beat : option JSString) : JSString :=
  match beat with
  | Some b => if truthy b then b else fallback
  | None => fallback
  end.

(** [story.outline[index - 1] || "..."]. *)
Definition segmentOutline (story : AudioStory) (index : nat) : JSString :=
  match index with
  | O => defaultSegmentOutline
  | S k => beatOr defaultSegmentOutline (nth_error (outline story) k)
  end.

Definition compareIndex (a b : StorySegment) : Z :=
  (Z.of_nat (index a) - Z.of_nat (index b))%Z.

Definition withAudio (segmentData : StorySegment) (audio : AudioBuffer)
    : StorySegment :=
  mkStorySegment (index segmentData) (text segmentData) (Some audio).

(** The updater that [generateNextSegment] hands to [setStory]. *)
Definition storeSegment (index : nat) (segmentData : StorySegment)
    (audio : AudioBuffer) (prev : option AudioStory) : option AudioStory :=
  match prev with
  | None => None
  | Some p =>
      if existsb (fun s => Nat.eqb (Types.index s) index) (segments p)
      then Some p
      else Some (mkAudioStory (totalSegmentsEstimate p) (outline p)
                   (sortBy compareIndex
                      (segments p ++ [withAudio segmentData audio])))
  end.

Definition textTimeoutMessage (index : nat) : JSString :=
  msgSegmentPrefix ++ numToString index ++ msgSegmentTextSuffix.

Definition audioTimeoutMessage (index : nat) : JSString :=
  msgSegmentPrefix ++ numToString index ++ msgSegmentAudioSuffix.

(** [generateNextSegment(index)] up to its first [await]. *)
Definition generateNextSegment (index : nat) (sys : System) : System :=
  let st := app sys in
  match route st, story st with
  | Some r, Some s =>
      if isGeneratingRef st then sys
      else
        let request :=
          mkTextRequest r index (totalSegmentsEstimate s)
                        (segmentOutline s index) (allPreviousText s) in
        mkSystem (setGenerating true st)
                 (pending sys ++ [mkInvocation index request AwaitText])
  | _, _ => sys
  end.

Fixpoint replaceAt {A} (k : nat) (x : A) (l : list A) : list A :=
  match l, k with
  | [], _ => []
  | _ :: l', O => x :: l'
  | y :: l', S k' => y :: replaceAt k' x l'
  end.

Fixpoint removeAt {A} (k : nat) (l : list A) : list A :=
  match l, k with
  | [], _ => []
  | _ :: l', O => l'
  | y :: l', S k' => y :: removeAt k' l'
  end.

(** The [catch] and [finally] blocks: the error is logged, the flag and
    the indicator are cleared, the invocation ends. *)
Definition finish (k : nat) (st : State) (sys : System) : System :=
  mkSystem (setGenerating false st) (removeAt k (pending sys)).

(** The first [await] of invocation [k] completes; [reply] is the
    behaviour of the model call made by [generateSegment]. *)
Definition textSettled (k : nat) (reply : Promise (option JSString))
    (sys : System) : System :=
  match nth_error (pending sys) k with
  | Some (mkInvocation index request AwaitText) =>
      match withTimeout (andThen (generateSegment index) reply) 60000
                        (textTimeoutMessage index) with
      | Fulfilled segmentData =>
          mkSystem (app sys)
            (replaceAt k (mkInvocation index request (AwaitAudio segmentData))
                       (pending sys))
      | Rejected _ => finish k (app sys) sys
      end
  | _ => sys
  end.

(** The second [await] of invocation [k] completes; [audio] is the
    behaviour of [generateSegmentAudio]. *)
Definition audioSettled (k : nat) (audio : Promise AudioBuffer)
    (sys : System) : System :=
  match nth_error (pending sys) k with
  | Some (mkInvocation index _ (AwaitAudio segmentData)) =>
      match withTimeout audio 100000 (audioTimeoutMessage index) with
      | Fulfilled audioBuffer =>
          finish k (setStory (storeSegment index segmentData audioBuffer)
                             (app sys)) sys
      | Rejected _ => finish k (app sys) sys
      end
  | _ => sys
  end.

Section WithAppState.

Variable AppState : AppStateEnum.

Definition initialState : State :=
  mkState (PLANNING AppState) None None None false false 0.

Definition initialSystem : System := mkSystem initialState [].

(** The lookahead effect: the index it asks [generateNextSegment] for,
    if any. *)
Definition schedulerRequest (st : State) : option nat :=
  match story st, route st with
  | Some s, Some _ =>
      if (appState st <? READY_TO_PLAY AppState)%Z then None
      else
        let totalGenerated := length (segments s) in
        let neededBufferIndex := currentPlayingIndex st + 3 in
        if (totalGenerated <? neededBufferIndex)
           && (totalGenerated <? totalSegmentsEstimate s)
           && negb (isGeneratingRef st)
        then Some (totalGenerated + 1)
        else None
  | _, _ => None
  end.

Definition schedulerEffect (sys : System) : System :=
  match schedulerRequest (app sys) with
  | Some index => generateNextSegment index sys
  | None => sys
  end.

(** The [catch] block of [handleGenerateStory]. *)
Definition startFailed (error : Error) (st : State) : State :=
  let timedOut :=
    truthy (message error)
    && (includes (ofAscii "timed out") (message error)
        || includes (ofAscii "timeout") (message error)) in
  mkState (PLANNING AppState) (route st) (story st)
          (Some (if timedOut then msgStartTimedOut else msgStartFailed))
          (isGeneratingRef st) (isBackgroundGenerating st)
          (currentPlayingIndex st).

(** The promise returned by [generateStoryOutline]: a failed model call
    is caught inside it. *)
Definition outlinePromise (totalSegments : nat)
    (reply : Promise (option (list JSString))) : Promise (list JSString) :=
  andThen (fun r =>
             match r with
             | Fulfilled parsed =>
                 Fulfilled (generateStoryOutline totalSegments parsed)
             | Rejected _ =>
                 Fulfilled (generateStoryOutline totalSegments None)
             end) reply.

(** [handleGenerateStory(details)], run to completion against the
    behaviour of its three external calls. *)
Definition handleGenerateStory (details : RouteDetails)
    (outlineReply : Promise (option (list JSString)))
    (textReply : Promise (option JSString))
    (audioReply : Promise AudioBuffer) (st : State) : State :=
  let st1 :=
    mkState (GENERATING_INITIAL_SEGMENT AppState) (Some details) (story st)
            None (isGeneratingRef st) (isBackgroundGenerating st)
            (currentPlayingIndex st) in
  let totalSegmentsEstimate :=
    calculateTotalSegments (durationSeconds details) in
  match withTimeout (outlinePromise totalSegmentsEstimate outlineReply)
                    60000 msgOutlineTimeout with
  | Rejected error => startFailed error st1
  | Fulfilled outline =>
      let firstOutlineBeat := beatOr defaultFirstBeat (nth_error outline 0) in
      match withTimeout (andThen (generateSegment 1) textReply)
                        60000 msgInitialTextTimeout with
      | Rejected error => startFailed error st1
      | Fulfilled seg1Data =>
          match withTimeout audioReply 100000 msgInitialAudioTimeout with
          | Rejected error => startFailed error st1
          | Fulfilled seg1Audio =>
              mkState (READY_TO_PLAY AppState) (Some details)
                (Some (mkAudioStory totalSegmentsEstimate outline
                         [withAudio seg1Data seg1Audio]))
                None (isGeneratingRef st) (isBackgroundGenerating st)
                (currentPlayingIndex st)
          end
      end
  end.

Definition handleReset (st : State) : State :=
  mkState (PLANNING AppState) None None None false false 0.

(** What can happen to the component. *)
Inductive Event :=
| EvRender
| EvSegmentChange (index : nat)
| EvTextSettled (k : nat) (reply : Promise (option JSString))
| EvAudioSettled (k : nat) (audio : Promise AudioBuffer)
| EvReset
| EvGenerateStory (details : RouteDetails)
    (outlineReply : Promise (option (list JSString)))
    (textReply : Promise (option JSString))
    (audioReply : Promise AudioBuffer).

Definition step (sys : System) (ev : Event) : System :=
  match ev with
  | EvRender => schedulerEffect sys
  | EvSegmentChange i =>
      mkSystem (setCurrentPlayingIndex i (app sys)) (pending sys)
  | EvTextSettled k reply => textSettled k reply sys
  | EvAudioSettled k audio => audioSettled k audio sys
  | EvReset => mkSystem (handleReset (app sys)) (pending sys)
  | EvGenerateStory details o t a =>
      mkSystem (handleGenerateStory details o t a (app sys)) (pending sys)
  end.

Definition run (sys : System) (evs : list Event) : System :=
  fold_left step evs sys.

Definition isReset (ev : Event) : bool :=
  match ev with EvReset => true | _ => false end.

End WithAppState.

End App.
Import App.

(* ================================================================= *)
(** ** The player component ([components/StoryPlayer.tsx]) *)

Module StoryPlayer.

(** The props a render receives.  A handler created by a render keeps
    reading the props of that render. *)
Record Props := mkProps {
  story : AudioStory;
  isBackgroundGenerating : bool
}.

(** The buffer source node held by [sourceRef]: the segment its [onended]
    handler closes over, the buffer it plays (that segment's), the offset
    given to [source.start(0, offset)], and the props of the render whose
    [handleSegmentEnd] the handler calls. *)
Record Source := mkSource {
  src_segment : StorySegment;
  src_buffer : AudioBuffer;
  src_offset : float;
  src_props : Props
}.

(** The [useState] cells and the refs of the component. *)
Record Player := mkPlayer {
  isPlaying : bool;
  currentSegmentIndex : nat;
  isBuffering : bool;
  autoScroll : bool;
  audioContextRef : option ContextState;
  sourceRef : option Source;
  startTimeRef : float;
  segmentOffsetRef : float;
  indexRef : nat
}.

Definition initialPlayer : Player :=
  mkPlayer false 0 false true None None 0%float 0%float 0.

Definition setIsPlaying (b : bool) (p : Player) : Player :=
  mkPlayer b (currentSegmentIndex p) (isBuffering p) (autoScroll p)
           (audioContextRef p) (sourceRef p) (startTimeRef p)
           (segmentOffsetRef p) (indexRef p).

Definition setCurrentSegmentIndex (i : nat) (p : Player) : Player :=
  mkPlayer (isPlaying p) i (isBuffering p) (autoScroll p)
           (audioContextRef p) (sourceRef p) (startTimeRef p)
           (segmentOffsetRef p) (indexRef p).

Definition setIsBuffering (b : bool) (p : Player) : Player :=
  mkPlayer (isPlaying p) (currentSegmentIndex p) b (autoScroll p)
           (audioContextRef p) (sourceRef p) (startTimeRef p)
           (segmentOffsetRef p) (indexRef p).

Definition setAutoScroll (b : bool) (p : Player) : Player :=
  mkPlayer (isPlaying p) (currentSegmentIndex p) (isBuffering p) b
           (audioContextRef p) (sourceRef p) (startTimeRef p)
           (segmentOffsetRef p) (indexRef p).

Definition setSegmentOffset (offset : float) (p : Player) : Player :=
  mkPlayer (isPlaying p) (currentSegmentIndex p) (isBuffering p)
           (autoScroll p) (audioContextRef p) (sourceRef p) (startTimeRef p)
           offset (indexRef p).

(** [stopAudio]: detach the handler, stop the node, forget it. *)
Definition stopAudio (p : Player) : Player :=
  match sourceRef p with
  | Some _ =>
      mkPlayer (isPlaying p) (currentSegmentIndex p) (isBuffering p)
               (autoScroll p) (audioContextRef p) None (startTimeRef p)
               (segmentOffsetRef p) (indexRef p)
  | None => p
  end.

(** [playSegment(segment, offset)], with [now] the reading of
    [audioContext.currentTime] when the source is started.  The context
    is created on first use and resumed when suspended. *)
Definition playSegment (props : Props) (segment : option StorySegment)
    (offset : float) (now : float) (p : Player) : Player :=
  match segment with
  | Some seg =>
      match audioBuffer seg with
      | Some buffer =>
          let p1 := stopAudio p in
          mkPlayer (isPlaying p1) (currentSegmentIndex p1) (isBuffering p1)
                   (autoScroll p1) (Some running)
                   (Some (mkSource seg buffer offset props))
                   (now - offset)%float (segmentOffsetRef p1) (indexRef p1)
      | None => setIsBuffering true p
      end
  | None => setIsBuffering true p
  end.

Definition hasAudio (segment : option StorySegment) : bool :=
  match segment with
  | Some seg => match audioBuffer seg with Some _ => true | None => false end
  | None => false
  end.

(** [handleSegmentEnd], as created by the render with [props]. *)
Definition handleSegmentEnd (props : Props) (now : float) (p : Player)
    : Player :=
  let currentIndex := indexRef p in
  let nextIndex := currentIndex + 1 in
  let p1 := setSegmentOffset 0%float (setCurrentSegmentIndex nextIndex p) in
  let next := nth_error (segments (story props)) nextIndex in
  if hasAudio next then playSegment props next 0%float now p1
  else if (totalSegmentsEstimate (story props) <=? nextIndex)
          && negb (isBackgroundGenerating props)
       then setIsPlaying false p1
       else setIsBuffering true p1.

(** The [onended] handler of the current source, fired at clock reading
    [now]. *)
Definition onended (now : float) (p : Player) : Player :=
  match sourceRef p with
  | Some src =>
      match audioContextRef p with
      | None => p
      | Some _ =>
          let elapsed := (now - startTimeRef p)%float in
          if (WebAudio.duration (src_buffer src) - 0.5 <=? elapsed)%float
          then handleSegmentEnd (src_props src) now p
          else p
      end
  | None => p
  end.

(** [togglePlayback], as created by the current render. *)
Definition togglePlayback (props : Props) (now : float) (p : Player)
    : Player :=
  if isPlaying p then
    let p1 :=
      match audioContextRef p with
      | Some _ =>
          if negb (isBuffering p)
          then setSegmentOffset (now - startTimeRef p)%float p
          else p
      | None => p
      end in
    setAutoScroll false (setIsPlaying false (stopAudio p1))
  else
    let p1 := setIsPlaying true p in
    let currentSegment :=
      nth_error (segments (story props)) (currentSegmentIndex p) in
    if hasAudio currentSegment
    then setAutoScroll true
           (playSegment props currentSegment (segmentOffsetRef p1) now
                        (setIsBuffering false p1))
    else setIsBuffering true p1.

(** The effect that keeps [indexRef] equal to the cursor. *)
Definition syncIndexRef (p : Player) : Player :=
  mkPlayer (isPlaying p) (currentSegmentIndex p) (isBuffering p)
           (autoScroll p) (audioContextRef p) (sourceRef p) (startTimeRef p)
           (segmentOffsetRef p) (currentSegmentIndex p).

(** The effect that leaves buffering once the awaited segment has audio. *)
Definition bufferingEffect (props : Props) (now : float) (p : Player)
    : Player :=
  let segmentNowReady :=
    nth_error (segments (story props)) (currentSegmentIndex p) in
  if isBuffering p && isPlaying p && hasAudio segmentNowReady
  then playSegment props segmentNowReady 0%float now (setIsBuffering false p)
  else p.

(** The effects of one render, in declaration order. *)
Definition renderEffects (props : Props) (now : float) (p : Player)
    : Player :=
  bufferingEffect props now (syncIndexRef p).

(** The cleanup run when the component unmounts: the source is stopped
    and the context closed. *)
Definition unmount (p : Player) : Player := stopAudio p.

(** What can happen to the player; each event carries the reading of the
    output clock at that moment. *)
Inductive Event :=
| EvToggle (props : Props) (now : float)
| EvEnded (now : float)
| EvRender (props : Props) (now : float).

Definition step (p : Player) (ev : Event) : Player :=
  match ev with
  | EvToggle props now => togglePlayback props now p
  | EvEnded now => onended now p
  | EvRender props now => renderEffects props now p
  end.

Definition run (p : Player) (evs : list Event) : Player :=
  fold_left step evs p.

End StoryPlayer.

(* ================================================================= *)
(** ** The route planner ([components/RoutePlanner.tsx]) *)

Module RoutePlanner.

(* 請搜尋並選擇起點與終點位置。 *)
Definition msgMissingPlaces : JSString :=
  [35531; 25628; 23563; 20006; 36984; 25799; 36215; 40670; 33287; 32066;
   40670; 20301; 32622; 12290]%N.

(* Google 地圖服務尚未就緒，請稍後再試。 *)
Definition msgMapsNotReady : JSString :=
  [71; 111; 111; 103; 108; 101; 32; 22320; 22294; 26381; 21209; 23578;
   26410; 23601; 32210; 65292; 35531; 31245; 24460; 20877; 35430; 12290]%N.

(* 抱歉，這段路程太長了。請選擇 4 小時以內的路線。 *)
Definition msgRouteTooLong : JSString :=
  [25265; 27465; 65292; 36889; 27573; 36335; 31243; 22826; 38263; 20102;
   12290; 35531; 36984; 25799; 32; 52; 32; 23567; 26178; 20197; 20839;
   30340; 36335; 32218; 12290]%N.

(* 無法計算從「 *)
Definition msgNoRouteHead : JSString :=
  [28961; 27861; 35336; 31639; 24478; 12300]%N.

(* 」到「 *)
Definition msgNoRouteMiddle : JSString :=
  [12301; 21040; 12300]%N.

(* 」的路線。 *)
Definition msgNoRouteTail : JSString :=
  [12301; 30340; 36335; 32218; 12290]%N.

(* 路徑計算失敗，請檢查地點後重試。 *)
Definition msgRouteFailed : JSString :=
  [36335; 24465; 35336; 31639; 22833; 25943; 65292; 35531; 27298; 26597;
   22320; 40670; 24460; 37325; 35430; 12290]%N.
(** One leg of a directions result, as far as the planner reads it. *)
Record Leg := mkLeg {
  start_address : JSString;
  end_address : JSString;
  distance_text : JSString;
  duration_text : JSString;
  duration_value : Z
}.

(** What the directions service calls back with: a first leg when the
    status is OK, the status ZERO_RESULTS, or any other status. *)
Inductive DirectionsReply :=
| ReplyOK (leg : Leg)
| ReplyZeroResults
| ReplyOther.

(** What [handleCalculate] ends in: an error shown to the user, or the
    route handed to [onRouteFound]. *)
Inductive Outcome :=
| ShowError (msg : JSString)
| RouteFound (details : RouteDetails).

(** [ref.current?.value || state]. *)
Definition inputOr (input : option JSString) (state : JSString) : JSString :=
  match input with
  | Some v => if truthy v then v else state
  | None => state
  end.

(** The callback given to [directionsService.route]. *)
Definition routeCallback (travelMode : TravelMode) (selectedStyle : StoryStyle)
    (finalStart finalEnd : JSString) (reply : DirectionsReply) : Outcome :=
  match reply with
  | ReplyOK leg =>
      if (duration_value leg >? 14400)%Z then ShowError msgRouteTooLong
      else RouteFound
             (mkRouteDetails (start_address leg) (end_address leg)
                (distance_text leg) (duration_text leg) (duration_value leg)
                travelMode (ofAscii "Kore") selectedStyle)
  | ReplyZeroResults =>
      ShowError (msgNoRouteHead ++ finalStart ++ msgNoRouteMiddle
                 ++ finalEnd ++ msgNoRouteTail)
  | ReplyOther => ShowError msgRouteFailed
  end.

(** [handleCalculate], run until the directions service has called back. *)
Definition handleCalculate (startInput endInput : option JSString)
    (startAddress endAddress : JSString) (mapsLoaded : bool)
    (travelMode : TravelMode) (selectedStyle : StoryStyle)
    (reply : DirectionsReply) : Outcome :=
  let finalStart := inputOr startInput startAddress in
  let finalEnd := inputOr endInput endAddress in
  if negb (truthy finalStart) || negb (truthy finalEnd)
  then ShowError msgMissingPlaces
  else if negb mapsLoaded then ShowError msgMapsNotReady
  else routeCallback travelMode selectedStyle finalStart finalEnd reply.

End RoutePlanner.

(* ================================================================= *)
(** ** Vocabulary of the statements *)

(** Order of two segments by index. *)
Definition byIndex (a b : StorySegment) : Prop := index a <= index b.

(** The store after a batch of generations has completed, in completion
    order: each entry is the index asked for, the text the text stage
    returned for it and the audio of the audio stage. *)
Definition storeAll (completed : list (nat * JSString * AudioBuffer))
    (prev : option AudioStory) : option AudioStory :=
  fold_left
    (fun acc c =>
       match c with
       | (i, t, a) => storeSegment i (mkStorySegment i t None) a acc
       end)
    completed prev.

(** Number of invocations of [generateNextSegment] in flight. *)
Definition inFlight (sys : System) : nat := length (pending sys).


(** Events of a session once its story exists: renders, playhead moves and
    completions of awaited calls. *)
Definition inSession (ev : App.Event) : bool :=
  match ev with
  | App.EvReset => false
  | App.EvGenerateStory _ _ _ _ => false
  | _ => true
  end.

(** *** Sample values *)

Definition sampleEnum : AppStateEnum := mkAppStateEnum 0 2 3 4.

Definition sampleRoute : RouteDetails :=
  mkRouteDetails (ofAscii "A") (ofAscii "B") (ofAscii "1 km")
                 (ofAscii "5 mins") 300 WALKING (ofAscii "Kore") NOIR.

Definition sampleAudio : AudioBuffer := mkAudioBuffer 60%float.

Definition sampleSegment (i : nat) : StorySegment :=
  mkStorySegment i (ofAscii "text") (Some sampleAudio).

Definition sampleStory (n total : nat) : AudioStory :=
  mkAudioStory total [] (map sampleSegment (seq 1 n)).

Definition sampleState (n total playhead : nat) : State :=
  mkState 4 (Some sampleRoute) (Some (sampleStory n total)) None
          false false playhead.

Definition okOutline : Promise (option (list JSString)) :=
  Some (0%Z, Fulfilled (Some [ofAscii "beat"])).

Definition okText : Promise (option JSString) :=
  Some (0%Z, Fulfilled (Some (ofAscii "text"))).

Definition okAudio : Promise AudioBuffer :=
  Some (0%Z, Fulfilled sampleAudio).

(** The flag is set exactly while an invocation is in flight, and there is
    at most one. *)
Definition mutexInv (sys : System) : Prop :=
  (isGeneratingRef (app sys) = false <-> pending sys = []) /\
  length (pending sys) <= 1.

(** A session, a reset while its generation is in flight, and the start of
    the next session. *)
Definition restartTrace : list App.Event :=
  [ App.EvGenerateStory sampleRoute okOutline okText okAudio;
    App.EvRender;
    App.EvReset;
    App.EvGenerateStory sampleRoute okOutline okText okAudio ].

(** The same, followed by the first render of the next session. *)
Definition overlapTrace : list App.Event :=
  [ App.EvGenerateStory sampleRoute okOutline okText okAudio;
    App.EvRender;
    App.EvReset;
    App.EvGenerateStory sampleRoute okOutline okText okAudio;
    App.EvRender ].


(** A store whose narrative is longer than 1000 code units, and a ready
    state that holds it. *)
Definition longStory : AudioStory :=
  mkAudioStory 5 []
    [ mkStorySegment 1 (repeat 97%N 1001) (Some sampleAudio);
      mkStorySegment 2 [98%N] (Some sampleAudio) ].

Definition longState : State :=
  mkState 4 (Some sampleRoute) (Some longStory) None false false 0.

(** A pending invocation past its text stage holds a segment of the index
    it was started for. *)
Definition pendingIndexed (sys : System) : Prop :=
  forall inv segmentData,
    In inv (pending sys) ->
    inv_stage inv = AwaitAudio segmentData ->
    index segmentData = inv_index inv.

(** The store of a running session: segments 1..n, at most the estimated
    total, and whatever is in flight is the generation of segment n+1. *)
Definition sessionInv (sys : System) : Prop :=
  mutexInv sys /\
  pendingIndexed sys /\
  match App.story (app sys) with
  | None => pending sys = []
  | Some s =>
      map index (segments s) = seq 1 (length (segments s)) /\
      1 <= length (segments s) <= totalSegmentsEstimate s /\
      forall inv, In inv (pending sys) ->
                  inv_index inv = length (segments s) + 1 /\
                  length (segments s) < totalSegmentsEstimate s
  end.

(** The story, if there is one, is strictly increasing by index. *)
Definition storySorted (st : State) : Prop :=
  forall s, App.story st = Some s -> StronglySorted lt (map index (segments s)).

(** A session in which the second segment is generated, and its store. *)
Definition sessionTrace : list App.Event :=
  [ App.EvRender; App.EvTextSettled 0 okText; App.EvAudioSettled 0 okAudio;
    App.EvSegmentChange 1 ].

Definition sessionStory : AudioStory :=
  mkAudioStory 5
    [ofAscii "beat"; outlinePadBeat; outlinePadBeat; outlinePadBeat;
     outlinePadBeat]
    [sampleSegment 1; sampleSegment 2].

(** A text call that fails after 5 ms with an error of the client
    library. *)
Definition failingText : Promise (option JSString) :=
  Some (5%Z, Rejected (mkError (ofAscii "Request timeout"))).

(** The application after a first session that was reset once its second
    segment had been stored. *)
Definition afterReset : System :=
  App.run sampleEnum (initialSystem sampleEnum)
    (App.EvGenerateStory sampleRoute okOutline okText okAudio
       :: sessionTrace ++ [App.EvReset]).

(** Renders of the player, as opposed to user and audio events. *)
Definition isRender (ev : StoryPlayer.Event) : bool :=
  match ev with
  | StoryPlayer.EvRender _ _ => true
  | _ => false
  end.

Definition sampleProps (n total : nat) : StoryPlayer.Props :=
  StoryPlayer.mkProps (sampleStory n total) false.

(** A player ten seconds into the first segment of a two-segment store. *)
Definition playingPlayer : StoryPlayer.Player :=
  StoryPlayer.mkPlayer true 0 false true (Some running)
    (Some (StoryPlayer.mkSource (sampleSegment 1) sampleAudio 0%float
             (sampleProps 2 5)))
    100%float 0%float 0.

(** A player waiting for the second segment. *)
Definition bufferingPlayer : StoryPlayer.Player :=
  StoryPlayer.mkPlayer true 1 true true (Some running)
    (Some (StoryPlayer.mkSource (sampleSegment 1) sampleAudio 0%float
             (sampleProps 1 5)))
    100%float 0%float 1.

(** The source node, when there is one, plays the buffer of the segment its
    handler closes over, that segment belongs to the story of the props the
    handler closes over, and the audio context exists. *)
Definition sourceInv (p : StoryPlayer.Player) : Prop :=
  forall src,
    StoryPlayer.sourceRef p = Some src ->
    audioBuffer (StoryPlayer.src_segment src) = Some (StoryPlayer.src_buffer src) /\
    In (StoryPlayer.src_segment src)
       (segments (StoryPlayer.story (StoryPlayer.src_props src))) /\
    StoryPlayer.audioContextRef p = Some running.

(** The same player when its source was started before the second segment
    was stored. *)
Definition playingPlayerAlone : StoryPlayer.Player :=
  StoryPlayer.mkPlayer true 0 false true (Some running)
    (Some (StoryPlayer.mkSource (sampleSegment 1) sampleAudio 0%float
             (sampleProps 1 5)))
    100%float 0%float 0.

(* ================================================================= *)
(** * Properties *)

(** ** The embedding on small inputs *)

Example sliceFrom_examples :
  sliceFrom (-2) (ofAscii "abc") = ofAscii "bc" /\
  sliceFrom (-5) (ofAscii "abc") = ofAscii "abc" /\
  sliceFrom 1 (ofAscii "abc") = ofAscii "bc" /\
  sliceFrom 7 (ofAscii "abc") = [].
Proof. repeat split. Qed.

Example join_examples :
  join (ofAscii " ") [ofAscii "a"; ofAscii "b"; ofAscii "c"] = ofAscii "a b c" /\
  join (ofAscii " ") [ofAscii "a"] = ofAscii "a" /\
  join (ofAscii " ") [] = [].
Proof. repeat split. Qed.

Example includes_examples :
  includes (ofAscii "timeout") (ofAscii "request timeout after 5s") = true /\
  includes (ofAscii "timed out") (ofAscii "timeout") = false /\
  includes [] [] = true.
Proof. repeat split. Qed.

Example numToString_examples :
  numToString 0 = ofAscii "0" /\ numToString 120 = ofAscii "120".
Proof. repeat split. Qed.

Example sortBy_examples :
  map index
    (sortBy compareIndex
       [mkStorySegment 3 [] None; mkStorySegment 1 [] None;
        mkStorySegment 2 [] None]) = [1; 2; 3] /\
  map text
    (sortBy compareIndex
       [mkStorySegment 2 (ofAscii "x") None; mkStorySegment 1 [] None;
        mkStorySegment 2 (ofAscii "y") None])
  = [[]; ofAscii "x"; ofAscii "y"].
Proof. repeat split. Qed.

Example calculateTotalSegments_examples :
  calculateTotalSegments 900 = 15 /\
  calculateTotalSegments 901 = 16 /\
  calculateTotalSegments 0 = 1 /\
  calculateTotalSegments 59 = 1.
Proof. repeat split. Qed.

Example generateStoryOutline_examples :
  generateStoryOutline 3 (Some [ofAscii "a"]) =
    [ofAscii "a"; outlinePadBeat; outlinePadBeat] /\
  generateStoryOutline 1 (Some [ofAscii "a"; ofAscii "b"]) = [ofAscii "a"] /\
  generateStoryOutline 2 (Some []) =
    [outlineFallbackBeat; outlineFallbackBeat] /\
  generateStoryOutline 2 None = [outlineFallbackBeat; outlineFallbackBeat].
Proof. repeat split. Qed.

Example generateSegment_examples :
  generateSegment 2 (Fulfilled (Some (ofAscii "hi"))) =
    Fulfilled (mkStorySegment 2 (ofAscii "hi") None) /\
  generateSegment 2 (Fulfilled (Some [])) = Rejected (mkError msgEmptyText) /\
  generateSegment 2 (Fulfilled None) = Rejected (mkError msgEmptyText).
Proof. repeat split. Qed.

Example withTimeout_examples :
  withTimeout (Some (59999%Z, Fulfilled 7)) 60000 (ofAscii "late") = Fulfilled 7 /\
  withTimeout (Some (60000%Z, Fulfilled 7)) 60000 (ofAscii "late") = Fulfilled 7 /\
  withTimeout (Some (60001%Z, Fulfilled 7)) 60000 (ofAscii "late")
  = Rejected (mkError (ofAscii "late")) /\
  withTimeout (T := nat) None 60000 (ofAscii "late")
  = Rejected (mkError (ofAscii "late")).
Proof. repeat split. Qed.

(** ** Lists, sorting and strings *)

Section Sorting.

Variable A : Type.
Variable cmp : A -> A -> Z.

Lemma insertBy_perm (x : A) (l : list A) :
  Permutation (insertBy cmp x l) (x :: l).
Proof.
  induction l as [|y l IH]; simpl.
  - apply Permutation_refl.
  - destruct (0 <? cmp x y)%Z.
    + apply perm_trans with (y :: x :: l).
      * now apply perm_skip.
      * apply perm_swap.
    + apply Permutation_refl.
Qed.

Lemma sortBy_perm (l : list A) : Permutation (sortBy cmp l) l.
Proof.
  induction l as [|x l IH]; simpl.
  - constructor.
  - apply perm_trans with (x :: sortBy cmp l).
    + apply insertBy_perm.
    + now apply perm_skip.
Qed.

Lemma sortBy_length (l : list A) : length (sortBy cmp l) = length l.
Proof. apply Permutation_length, sortBy_perm. Qed.

End Sorting.

Lemma insertBy_index_sorted (x : StorySegment) (l : list StorySegment) :
  Sorted byIndex l -> Sorted byIndex (insertBy compareIndex x l).
Proof.
  induction l as [|y l IH]; simpl; intros Hs.
  - repeat constructor.
  - destruct (0 <? compareIndex x y)%Z eqn:E.
    + apply Z.ltb_lt in E. unfold compareIndex in E.
      inversion Hs as [|? ? Hs' Hhd]; subst.
      constructor; [now apply IH|].
      destruct l as [|z l]; simpl.
      * constructor. unfold byIndex. lia.
      * destruct (0 <? compareIndex x z)%Z.
        -- constructor. now inversion Hhd.
        -- constructor. unfold byIndex. lia.
    + apply Z.ltb_ge in E. unfold compareIndex in E.
      constructor; [assumption|]. constructor. unfold byIndex. lia.
Qed.

Lemma sortBy_index_sorted (l : list StorySegment) :
  Sorted byIndex (sortBy compareIndex l).
Proof.
  induction l as [|x l IH]; simpl.
  - constructor.
  - now apply insertBy_index_sorted.
Qed.

Lemma byIndex_trans : Relations_1.Transitive byIndex.
Proof. intros a b c; unfold byIndex; lia. Qed.

(** A list sorted by index whose indices are pairwise distinct is strictly
    increasing. *)
Lemma sorted_nodup_strict (l : list StorySegment) :
  Sorted byIndex l -> NoDup (map index l) ->
  StronglySorted lt (map index l).
Proof.
  intros Hs Hn. apply (Sorted_StronglySorted byIndex_trans) in Hs.
  induction Hs as [|a l Hs IH Hall]; simpl in *.
  - constructor.
  - inversion Hn as [|? ? Hnotin Hn']; subst.
    constructor; [now apply IH|].
    rewrite Forall_forall in *. intros i Hi.
    apply in_map_iff in Hi as [b [Hb Hin]]. subst i.
    specialize (Hall b Hin). unfold byIndex in Hall.
    assert (index a <> index b).
    { intros Heq. apply Hnotin. rewrite Heq. now apply in_map. }
    lia.
Qed.

Lemma strict_nodup (l : list nat) : StronglySorted lt l -> NoDup l.
Proof.
  induction 1 as [|a l Hs IH Hall]; constructor; [|assumption].
  intros Hin. rewrite Forall_forall in Hall. specialize (Hall a Hin). lia.
Qed.

Lemma existsb_index_false (i : nat) (l : list StorySegment) :
  existsb (fun s => Nat.eqb (index s) i) l = false -> ~ In i (map index l).
Proof.
  intros He Hin. apply in_map_iff in Hin as [s [Hs Hin]].
  assert (existsb (fun s => Nat.eqb (index s) i) l = true) as Ht.
  { apply existsb_exists. exists s. split; [assumption|]. now apply Nat.eqb_eq. }
  congruence.
Qed.

(** One insertion keeps a strictly increasing store strictly increasing,
    provided the text stage answered for the index it was asked for. *)
Lemma storeSegment_sorted (i : nat) (segmentData : StorySegment)
    (audio : AudioBuffer) (p p' : AudioStory) :
  index segmentData = i ->
  StronglySorted lt (map index (segments p)) ->
  storeSegment i segmentData audio (Some p) = Some p' ->
  StronglySorted lt (map index (segments p')).
Proof.
  intros Hi Hs. unfold storeSegment.
  destruct (existsb _ (segments p)) eqn:He; intros Heq; inversion Heq; subst p'.
  - assumption.
  - simpl. apply sorted_nodup_strict; [apply sortBy_index_sorted|].
    apply (Permutation_NoDup
             (l := map index (segments p ++ [withAudio segmentData audio]))).
    + apply Permutation_map, Permutation_sym, sortBy_perm.
    + rewrite map_app. simpl. rewrite Hi.
      apply (Permutation_NoDup (l := i :: map index (segments p))).
      * apply Permutation_cons_append.
      * constructor; [now apply existsb_index_false | now apply strict_nodup].
Qed.

Lemma storeSegment_some (i : nat) (segmentData : StorySegment)
    (audio : AudioBuffer) (p : AudioStory) :
  exists p', storeSegment i segmentData audio (Some p) = Some p'.
Proof.
  unfold storeSegment. destruct (existsb _ _); eauto.
Qed.

(* ================================================================= *)
(** ** The scheduler's request *)

Lemma schedulerRequest_ready (E : AppStateEnum) (st : State)
    (s : AudioStory) (r : RouteDetails) :
  story st = Some s -> route st = Some r ->
  (READY_TO_PLAY E <= appState st)%Z ->
  schedulerRequest E st =
    if (length (segments s) <? currentPlayingIndex st + 3)
       && (length (segments s) <? totalSegmentsEstimate s)
       && negb (isGeneratingRef st)
    then Some (length (segments s) + 1) else None.
Proof.
  intros Hs Hr Hready. unfold schedulerRequest. rewrite Hs, Hr.
  destruct (appState st <? READY_TO_PLAY E)%Z eqn:E1; [|reflexivity].
  apply Z.ltb_lt in E1. lia.
Qed.

Lemma schedulerRequest_some (E : AppStateEnum) (st : State) (i : nat) :
  schedulerRequest E st = Some i ->
  exists s r,
    story st = Some s /\ route st = Some r /\
    (READY_TO_PLAY E <= appState st)%Z /\
    length (segments s) < currentPlayingIndex st + 3 /\
    length (segments s) < totalSegmentsEstimate s /\
    isGeneratingRef st = false /\
    i = length (segments s) + 1.
Proof.
  unfold schedulerRequest.
  destruct (story st) as [s|]; [|discriminate].
  destruct (route st) as [r|]; [|discriminate].
  destruct (appState st <? READY_TO_PLAY E)%Z eqn:E1; [discriminate|].
  destruct (length (segments s) <? currentPlayingIndex st + 3) eqn:E2;
    [|discriminate].
  destruct (length (segments s) <? totalSegmentsEstimate s) eqn:E3;
    [|discriminate].
  destruct (isGeneratingRef st) eqn:E4; [discriminate|].
  simpl. intros H. inversion H.
  exists s, r. apply Z.ltb_ge in E1. apply Nat.ltb_lt in E2, E3.
  repeat split; auto.
Qed.

(* ================================================================= *)
(** ** Mutual exclusion of the generation pipeline *)

Lemma replaceAt_length (A : Type) (k : nat) (x : A) (l : list A) :
  length (replaceAt k x l) = length l.
Proof.
  revert k; induction l as [|y l IH]; intros [|k]; simpl; auto.
Qed.

Lemma nth_error_single (A : Type) (k : nat) (x : A) (l : list A) :
  length l <= 1 -> nth_error l k = Some x -> l = [x] /\ k = 0.
Proof.
  destruct l as [|y [|z l]]; simpl; intros Hl Hn.
  - destruct k; discriminate.
  - destruct k as [|k]; simpl in Hn.
    + inversion Hn. auto.
    + destruct k; discriminate.
  - lia.
Qed.

Lemma handleGenerateStory_flag (E : AppStateEnum) (d : RouteDetails)
    (o : Promise (option (list JSString))) (t : Promise (option JSString))
    (a : Promise AudioBuffer) (st : State) :
  isGeneratingRef (handleGenerateStory E d o t a st) = isGeneratingRef st.
Proof.
  unfold handleGenerateStory.
  destruct (withTimeout (outlinePromise _ o) _ _); [|reflexivity].
  destruct (withTimeout (andThen _ t) _ _); [|reflexivity].
  destruct (withTimeout a _ _); reflexivity.
Qed.

Lemma finish_single (k : nat) (st : State) (sys : System) (inv : Invocation) :
  length (pending sys) <= 1 ->
  nth_error (pending sys) k = Some inv ->
  mutexInv (finish k st sys).
Proof.
  intros Hl Hn. destruct (nth_error_single _ _ Hl Hn) as [Hp Hk].
  unfold finish, mutexInv. rewrite Hp, Hk. simpl. repeat split; auto.
Qed.

Lemma step_mutex (E : AppStateEnum) (sys : System) (ev : App.Event) :
  isReset ev = false -> mutexInv sys -> mutexInv (App.step E sys ev).
Proof.
  intros Hev [Hflag Hlen]. destruct ev; simpl in *; try discriminate.
  - (* render *)
    unfold schedulerEffect.
    destruct (schedulerRequest E (app sys)) as [i|] eqn:Hreq; [|now split].
    apply schedulerRequest_some in Hreq
      as (s & r & Hs & Hr & _ & _ & _ & Hf & _).
    unfold generateNextSegment. rewrite Hs, Hr, Hf.
    apply Hflag in Hf. rewrite Hf. unfold mutexInv. simpl.
    repeat split; try discriminate. lia.
  - (* playhead *)
    now split.
  - (* text stage settles *)
    unfold textSettled.
    destruct (nth_error (pending sys) k) as [[i req [|sd]]|] eqn:Hn;
      try now split.
    destruct (withTimeout _ _ _).
    + destruct (nth_error_single _ _ Hlen Hn) as [Hp Hk].
      unfold mutexInv. simpl. rewrite replaceAt_length. split; [|assumption].
      rewrite Hp, Hk. simpl. split.
      * intros Hf. apply Hflag in Hf. rewrite Hf in Hp. discriminate.
      * discriminate.
    + now apply finish_single with (inv := mkInvocation i req AwaitText).
  - (* audio stage settles *)
    unfold audioSettled.
    destruct (nth_error (pending sys) k) as [[i req [|sd]]|] eqn:Hn;
      try now split.
    destruct (withTimeout _ _ _);
      now apply finish_single with (inv := mkInvocation i req (AwaitAudio sd)).
  - (* story start *)
    unfold mutexInv. simpl. now rewrite handleGenerateStory_flag.
Qed.

Lemma run_mutex (E : AppStateEnum) (evs : list App.Event) (sys : System) :
  forallb (fun ev => negb (isReset ev)) evs = true ->
  mutexInv sys -> mutexInv (App.run E sys evs).
Proof.
  revert sys. induction evs as [|ev evs IH]; simpl; intros sys Hall Hinv.
  - assumption.
  - apply andb_prop in Hall as [Hev Hall]. apply negb_true_iff in Hev.
    apply IH; [assumption|]. now apply step_mutex.
Qed.

Lemma initial_mutex (E : AppStateEnum) : mutexInv (initialSystem E).
Proof. unfold mutexInv. simpl. repeat split; auto. Qed.

(** C3 as the specification has it fails: a reset clears the flag while the
    invocation it was guarding is still in flight, so the next session
    starts a second one beside it. *)
Lemma reset_allows_two_in_flight :
  inFlight (App.run sampleEnum (initialSystem sampleEnum) overlapTrace) = 2.
Proof. reflexivity. Qed.

(** C3, amended.  As long as the session is not reset, at most one
    invocation of the generation pipeline is in flight, and the flag is set
    exactly while it is.  The flag is set when the scheduler starts an
    invocation, before the text stage is awaited, and it is cleared when the
    text stage fails or times out and whenever the audio stage settles, by
    success, failure or timeout. *)
Theorem single_flight_without_reset (E : AppStateEnum) :
  (forall evs,
     forallb (fun ev => negb (isReset ev)) evs = true ->
     let sys := App.run E (initialSystem E) evs in
     inFlight sys <= 1 /\
     (isGeneratingRef (app sys) = true <-> inFlight sys = 1)) /\
  (forall sys i,
     schedulerRequest E (app sys) = Some i ->
     isGeneratingRef (app (schedulerEffect E sys)) = true /\
     exists request,
       pending (schedulerEffect E sys) =
       pending sys ++ [mkInvocation i request AwaitText]) /\
  (forall sys k i request reply e,
     nth_error (pending sys) k = Some (mkInvocation i request AwaitText) ->
     withTimeout (andThen (generateSegment i) reply) 60000
                 (textTimeoutMessage i) = Rejected e ->
     isGeneratingRef (app (textSettled k reply sys)) = false /\
     pending (textSettled k reply sys) = removeAt k (pending sys)) /\
  (forall sys k i request segmentData audio,
     nth_error (pending sys) k =
       Some (mkInvocation i request (AwaitAudio segmentData)) ->
     isGeneratingRef (app (audioSettled k audio sys)) = false /\
     pending (audioSettled k audio sys) = removeAt k (pending sys)).
Proof.
  split; [|split; [|split]].
  - intros evs Hall sys.
    destruct (run_mutex E evs Hall (initial_mutex E)) as [Hflag Hlen].
    fold sys in Hflag, Hlen. unfold inFlight. split; [assumption|].
    destruct (pending sys) as [|inv [|inv' l]] eqn:Hp; simpl in *.
    + split; [|discriminate]. intros Ht.
      assert (isGeneratingRef (app sys) = false) by now apply Hflag.
      congruence.
    + split; [reflexivity|]. intros _.
      destruct (isGeneratingRef (app sys)); [reflexivity|].
      assert (inv :: nil = nil) by now apply Hflag. discriminate.
    + lia.
  - intros sys i Hreq. unfold schedulerEffect. rewrite Hreq.
    apply schedulerRequest_some in Hreq
      as (s & r & Hs & Hr & _ & _ & _ & Hf & _).
    unfold generateNextSegment. rewrite Hs, Hr, Hf. simpl. eauto.
  - intros sys k i request reply e Hn Hw. unfold textSettled.
    rewrite Hn, Hw. simpl. auto.
  - intros sys k i request sd audio Hn. unfold audioSettled. rewrite Hn.
    destruct (withTimeout _ _ _); simpl; auto.
Qed.

Lemma single_flight_without_reset_witness :
  inFlight (App.run sampleEnum (initialSystem sampleEnum)
              [App.EvGenerateStory sampleRoute okOutline okText okAudio;
               App.EvRender; App.EvRender]) <= 1.
Proof.
  exact (proj1 (proj1 (single_flight_without_reset sampleEnum)
                  [App.EvGenerateStory sampleRoute okOutline okText okAudio;
                   App.EvRender; App.EvRender] eq_refl)).
Defined.

(* ================================================================= *)
(** ** The lookahead scheduler *)

Lemma schedulerEffect_request (E : AppStateEnum) (sys : System) (i : nat) :
  schedulerRequest E (app sys) = Some i ->
  exists request,
    schedulerEffect E sys =
    mkSystem (setGenerating true (app sys))
             (pending sys ++ [mkInvocation i request AwaitText]).
Proof.
  intros Hi. unfold schedulerEffect, generateNextSegment. rewrite Hi.
  apply schedulerRequest_some in Hi
    as (s & r & Hs & Hr & _ & _ & _ & Hf & _).
  rewrite Hs, Hr, Hf. eauto.
Qed.

Lemma schedulerRequest_generating (E : AppStateEnum) (st : State) :
  isGeneratingRef st = true -> schedulerRequest E st = None.
Proof.
  intros Hf. unfold schedulerRequest.
  destruct (story st); [|reflexivity]. destruct (route st); [|reflexivity].
  destruct (appState st <? READY_TO_PLAY E)%Z; [reflexivity|].
  now rewrite Hf, andb_false_r.
Qed.

(** C1 as the specification has it fails: after a reset the flag is clear
    while the invocation started before the reset is still in flight, and
    the scheduler of the next session asks for a generation beside it. *)
Lemma request_beside_generation_in_flight :
  let sys := App.run sampleEnum (initialSystem sampleEnum) restartTrace in
  inFlight sys = 1 /\
  isGeneratingRef (app sys) = false /\
  schedulerRequest sampleEnum (app sys) = Some 2 /\
  inFlight (schedulerEffect sampleEnum sys) = 2.
Proof. repeat split. Qed.

(** C1, amended.  Once the app is ready (a story and a route exist and the
    state has reached READY_TO_PLAY), an evaluation of the scheduler asks
    for a generation exactly when fewer segments exist than the playhead
    index plus 3, fewer than the estimated total, and the in-flight flag is
    clear; the index asked for is the number of segments plus one, the
    request starts one more invocation for that index and sets the flag, so
    that an immediate re-evaluation asks for nothing; nothing is asked once
    the number of segments equals the estimate.  As long as the session has
    not been reset, the flag is clear exactly when no generation is in
    flight, and then "the flag is clear" can be read as "nothing is in
    flight". *)
Theorem scheduler_request_iff (E : AppStateEnum) :
  (forall sys s r,
     story (app sys) = Some s ->
     route (app sys) = Some r ->
     (READY_TO_PLAY E <= appState (app sys))%Z ->
     let produced := length (segments s) in
     (forall i,
        schedulerRequest E (app sys) = Some i <->
        produced < currentPlayingIndex (app sys) + 3 /\
        produced < totalSegmentsEstimate s /\
        isGeneratingRef (app sys) = false /\
        i = produced + 1) /\
     (forall i,
        schedulerRequest E (app sys) = Some i ->
        (exists request,
           schedulerEffect E sys =
           mkSystem (setGenerating true (app sys))
                    (pending sys ++ [mkInvocation i request AwaitText])) /\
        isGeneratingRef (app (schedulerEffect E sys)) = true /\
        inFlight (schedulerEffect E sys) = inFlight sys + 1 /\
        schedulerRequest E (app (schedulerEffect E sys)) = None) /\
     (schedulerRequest E (app sys) = None -> schedulerEffect E sys = sys) /\
     (produced = totalSegmentsEstimate s ->
      schedulerRequest E (app sys) = None)) /\
  (forall evs s r,
     forallb (fun ev => negb (isReset ev)) evs = true ->
     let sys := App.run E (initialSystem E) evs in
     story (app sys) = Some s ->
     route (app sys) = Some r ->
     (READY_TO_PLAY E <= appState (app sys))%Z ->
     let produced := length (segments s) in
     (isGeneratingRef (app sys) = false <-> inFlight sys = 0) /\
     (forall i,
        schedulerRequest E (app sys) = Some i <->
        produced < currentPlayingIndex (app sys) + 3 /\
        produced < totalSegmentsEstimate s /\
        inFlight sys = 0 /\
        i = produced + 1)).
Proof.
  assert (forall st s r,
            story st = Some s -> route st = Some r ->
            (READY_TO_PLAY E <= appState st)%Z ->
            forall i,
              schedulerRequest E st = Some i <->
              length (segments s) < currentPlayingIndex st + 3 /\
              length (segments s) < totalSegmentsEstimate s /\
              isGeneratingRef st = false /\
              i = length (segments s) + 1) as Hiff.
  { intros st s r Hs Hr Hready i.
    pose proof (schedulerRequest_ready E st Hs Hr Hready) as Heq. split.
    - intros Hi. apply schedulerRequest_some in Hi
        as (s' & r' & Hs' & _ & _ & H1 & H2 & H3 & H4).
      rewrite Hs in Hs'. inversion Hs'; subst s'. auto.
    - intros (H1 & H2 & H3 & H4). rewrite Heq.
      apply Nat.ltb_lt in H1, H2. rewrite H1, H2, H3. simpl. now subst i. }
  split.
  - intros sys s r Hs Hr Hready produced.
    split; [exact (Hiff (app sys) s r Hs Hr Hready)|].
    split; [|split].
    + intros i Hi.
      destruct (schedulerEffect_request E sys Hi) as [request Heff].
      split; [eauto|]. rewrite Heff. cbn [app pending].
      split; [reflexivity|]. split.
      * unfold inFlight. cbn [pending]. now rewrite length_app.
      * now apply schedulerRequest_generating.
    + intros Hn. unfold schedulerEffect. now rewrite Hn.
    + intros Hp. rewrite (schedulerRequest_ready E (app sys) Hs Hr Hready).
      fold produced.
      replace (produced <? totalSegmentsEstimate s) with false.
      * now rewrite andb_false_r.
      * symmetry. apply Nat.ltb_ge. lia.
  - intros evs s r Hall sys Hs Hr Hready produced.
    destruct (run_mutex E evs Hall (initial_mutex E)) as [Hflag _].
    fold sys in Hflag.
    assert (isGeneratingRef (app sys) = false <-> inFlight sys = 0) as Hfl.
    { rewrite Hflag. unfold inFlight. split.
      - intros Hp. now rewrite Hp.
      - intros Hl. now apply length_zero_iff_nil. }
    split; [exact Hfl|]. intros i.
    rewrite (Hiff (app sys) s r Hs Hr Hready i), Hfl. reflexivity.
Qed.

Lemma scheduler_request_iff_witness :
  schedulerRequest sampleEnum (sampleState 1 5 0) = Some 2 <->
  1 < 0 + 3 /\ 1 < 5 /\ false = false /\ 2 = 1 + 1.
Proof.
  exact (proj1 (proj1 (scheduler_request_iff sampleEnum)
                  (mkSystem (sampleState 1 5 0) []) (sampleStory 1 5)
                  sampleRoute eq_refl eq_refl ltac:(simpl; lia)) 2).
Defined.




(* ================================================================= *)
(** ** The segment store *)

Lemma storeAll_sorted (completed : list (nat * JSString * AudioBuffer))
    (p : AudioStory) :
  StronglySorted lt (map index (segments p)) ->
  exists p',
    storeAll completed (Some p) = Some p' /\
    StronglySorted lt (map index (segments p')).
Proof.
  revert p. induction completed as [|[[i t] a] completed IH]; intros p Hs.
  - exists p. now split.
  - change (storeAll ((i, t, a) :: completed) (Some p))
      with (storeAll completed
              (storeSegment i (mkStorySegment i t None) a (Some p))).
    destruct (storeSegment_some i (mkStorySegment i t None) a p) as [p1 Hp1].
    rewrite Hp1. apply IH.
    now apply (storeSegment_sorted (mkStorySegment i t None) a p eq_refl).
Qed.

Lemma storeSegment_duplicate (i : nat) (segmentData : StorySegment)
    (audio : AudioBuffer) (p : AudioStory) :
  existsb (fun s => Nat.eqb (index s) i) (segments p) = true ->
  storeSegment i segmentData audio (Some p) = Some p.
Proof. intros He. unfold storeSegment. now rewrite He. Qed.

Lemma existsb_index_true (i : nat) (l : list StorySegment) :
  In i (map index l) -> existsb (fun s => Nat.eqb (index s) i) l = true.
Proof.
  intros Hin. apply in_map_iff in Hin as [s [Hs Hin]].
  apply existsb_exists. exists s. split; [assumption|]. now apply Nat.eqb_eq.
Qed.

(** C4.  Whatever the order in which generations complete, a store that is
    strictly increasing by index stays strictly increasing (sorted, with
    pairwise distinct indices) after all of them are inserted, and inserting
    a segment whose index is already present returns the store unchanged. *)
Theorem store_sorted_unique (completed : list (nat * JSString * AudioBuffer))
    (p : AudioStory) :
  StronglySorted lt (map index (segments p)) ->
  (exists p',
     storeAll completed (Some p) = Some p' /\
     StronglySorted lt (map index (segments p')) /\
     NoDup (map index (segments p'))) /\
  (forall i segmentData audio,
     In i (map index (segments p)) ->
     storeSegment i segmentData audio (Some p) = Some p).
Proof.
  intros Hs. split.
  - destruct (storeAll_sorted completed p Hs) as [p' [Hp' Hs']].
    exists p'. repeat split; auto. now apply strict_nodup.
  - intros i sd a Hin. apply storeSegment_duplicate.
    now apply existsb_index_true.
Qed.

Lemma store_sorted_unique_witness :
  exists p',
    storeAll [(3, ofAscii "c", sampleAudio); (2, ofAscii "b", sampleAudio);
              (3, ofAscii "d", sampleAudio)]
             (Some (sampleStory 1 5)) = Some p' /\
    StronglySorted lt (map index (segments p')) /\
    NoDup (map index (segments p')).
Proof.
  refine (proj1 (@store_sorted_unique
                   [(3, ofAscii "c", sampleAudio); (2, ofAscii "b", sampleAudio);
                    (3, ofAscii "d", sampleAudio)]
                   (sampleStory 1 5) _)).
  simpl. repeat constructor.
Defined.

(* ================================================================= *)
(** ** The generation pipeline *)





Lemma textSettled_story (k : nat) (reply : Promise (option JSString))
    (sys : System) :
  story (app (textSettled k reply sys)) = story (app sys).
Proof.
  unfold textSettled.
  destruct (nth_error (pending sys) k) as [[i req [|sd]]|]; try reflexivity.
  destruct (withTimeout _ _ _); reflexivity.
Qed.

Lemma audioSettled_rejected_story (k : nat) (audio : Promise AudioBuffer)
    (sys : System) :
  (forall i, exists e,
     withTimeout audio 100000 (audioTimeoutMessage i) = Rejected e) ->
  story (app (audioSettled k audio sys)) = story (app sys).
Proof.
  intros Hrej. unfold audioSettled.
  destruct (nth_error (pending sys) k) as [[i req [|sd]]|]; try reflexivity.
  destruct (Hrej i) as [e He]. now rewrite He.
Qed.




(* ================================================================= *)
(** ** The continuity context *)

Lemma sliceFrom_tail (A : Type) (n : Z) (s : list A) :
  (0 < n)%Z -> sliceFrom (- n) s = skipn (length s - Z.to_nat n) s.
Proof.
  intros Hn. unfold sliceFrom.
  replace (- n <? 0)%Z with true by (symmetry; apply Z.ltb_lt; lia).
  f_equal. lia.
Qed.

Lemma sliceFrom_tail_length (A : Type) (n : Z) (s : list A) :
  (0 < n)%Z -> length (sliceFrom (- n) s) <= Z.to_nat n.
Proof.
  intros Hn. rewrite sliceFrom_tail by assumption.
  rewrite length_skipn. lia.
Qed.

Lemma sliceFrom_tail_tail (A : Type) (m n : Z) (s : list A) :
  (0 < m <= n)%Z -> sliceFrom (- m) (sliceFrom (- n) s) = sliceFrom (- m) s.
Proof.
  intros Hmn. rewrite !sliceFrom_tail by lia.
  rewrite skipn_skipn, length_skipn. f_equal. lia.
Qed.

Lemma sliceFrom_tail_suffix (A : Type) (n : Z) (s : list A) :
  (0 < n)%Z ->
  (exists dropped, s = dropped ++ sliceFrom (- n) s) /\
  length (sliceFrom (- n) s) = Nat.min (length s) (Z.to_nat n).
Proof.
  intros Hn. rewrite sliceFrom_tail by assumption. split.
  - eexists. symmetry. apply firstn_skipn.
  - rewrite length_skipn. lia.
Qed.



(** X18.  Of the context it is handed, [generateSegment] puts only the last
    1000 code units into its prompt, and nothing at all for the first
    segment: for the generation the scheduler starts, the continuity
    paragraph of the prompt holds the last 1000 code units of the stored
    texts joined by single spaces. *)
Theorem prompt_embeds_last_1000 (E : AppStateEnum) (sys : System) (i : nat) :
  schedulerRequest E (app sys) = Some i ->
  exists s request,
    story (app sys) = Some s /\
    pending (schedulerEffect E sys) =
      pending sys ++ [mkInvocation i request AwaitText] /\
    let joined := join [32%N] (map text (segments s)) in
    contextPrompt i (req_previousContext request) =
      (if Nat.eqb i 1 then []
       else contextPromptHead ++ sliceFrom (-1000) joined ++ contextPromptTail) /\
    length (sliceFrom (-1000) joined) = Nat.min (length joined) 1000 /\
    forall previousContext, contextPrompt 1 previousContext = [].
Proof.
  intros Hreq. unfold schedulerEffect. rewrite Hreq.
  apply schedulerRequest_some in Hreq
    as (s & r & Hs & Hr & _ & _ & _ & Hf & _).
  unfold generateNextSegment. rewrite Hs, Hr, Hf. cbn [pending].
  eexists s, _. split; [reflexivity|]. split; [reflexivity|].
  cbn [req_previousContext]. unfold allPreviousText. cbv zeta.
  split; [|split].
  - unfold contextPrompt. destruct (Nat.eqb i 1); [reflexivity|].
    cbn [negb]. f_equal. f_equal.
    apply (sliceFrom_tail_tail (m := 1000) (n := 3000)). lia.
  - apply (sliceFrom_tail_suffix (n := 1000)). lia.
  - reflexivity.
Qed.

Lemma prompt_embeds_last_1000_witness :
  exists s request,
    story (longState) = Some s /\
    pending (schedulerEffect sampleEnum (mkSystem longState [])) =
      [] ++ [mkInvocation 3 request AwaitText] /\
    let joined := join [32%N] (map text (segments s)) in
    contextPrompt 3 (req_previousContext request) =
      (if Nat.eqb 3 1 then []
       else contextPromptHead ++ sliceFrom (-1000) joined ++ contextPromptTail) /\
    length (sliceFrom (-1000) joined) = Nat.min (length joined) 1000 /\
    forall previousContext, contextPrompt 1 previousContext = [].
Proof.
  exact (@prompt_embeds_last_1000 sampleEnum (mkSystem longState []) 3
           eq_refl).
Defined.

(* ================================================================= *)
(** ** Starting a story *)

(** C7.  When the first segment's text has not arrived after 60 seconds,
    the start is abandoned: the state is PLANNING again, no story is
    created and an error message is set.  The message is the general
    failure message, not the one meant for timeouts: the error raised by
    the timeout wrapper carries neither of the words the handler looks
    for. *)
Theorem first_text_timeout_message (E : AppStateEnum) (d : RouteDetails)
    (parsed : option (list JSString)) (audio : Promise AudioBuffer)
    (st : State) :
  (let st' :=
     handleGenerateStory E d (Some (0%Z, Fulfilled parsed)) None audio st in
   appState st' = PLANNING E /\
   story st' = story st /\
   route st' = Some d /\
   generationError st' = Some msgStartFailed) /\
  (forall (late : positive) (result : Settled (option JSString)),
     let st' :=
       handleGenerateStory E d (Some (0%Z, Fulfilled parsed))
         (Some ((60000 + Z.pos late)%Z, result)) audio st in
     appState st' = PLANNING E /\
     story st' = story st /\
     route st' = Some d /\
     generationError st' = Some msgStartFailed) /\
  msgStartFailed <> msgStartTimedOut /\
  includes (ofAscii "timed out") msgInitialTextTimeout = false /\
  includes (ofAscii "timeout") msgInitialTextTimeout = false.
Proof.
  split; [|split; [|split; [|split]]].
  - unfold handleGenerateStory. cbn. auto.
  - intros late result. unfold handleGenerateStory.
    cbn [outlinePromise andThen withTimeout]. cbn [Z.leb Z.compare].
    replace (60000 + Z.pos late <=? 60000)%Z with false
      by (symmetry; apply Z.leb_gt; lia).
    cbn. auto.
  - discriminate.
  - reflexivity.
  - reflexivity.
Qed.

(* ================================================================= *)
(** ** Further properties of the application component *)

Lemma withTimeout_fulfilled (T : Type) (promise : Promise T) (ms : Z)
    (msg : JSString) (v : T) :
  withTimeout promise ms msg = Fulfilled v ->
  exists t, promise = Some (t, Fulfilled v) /\ (t <= ms)%Z.
Proof.
  unfold withTimeout. destruct promise as [[t r]|]; [|discriminate].
  destruct (t <=? ms)%Z eqn:Ht; [|discriminate].
  intros H. subst r. exists t. split; [reflexivity|]. now apply Z.leb_le.
Qed.

Lemma generateSegment_fulfilled (i : nat) (reply : Settled (option JSString))
    (seg : StorySegment) :
  generateSegment i reply = Fulfilled seg ->
  index seg = i /\ text seg <> [] /\ audioBuffer seg = None /\
  reply = Fulfilled (Some (text seg)).
Proof.
  unfold generateSegment.
  destruct reply as [[[|c t]|]|e]; try discriminate.
  intros H. inversion H. simpl.
  split; [reflexivity|]. split; [discriminate|]. split; reflexivity.
Qed.

Lemma textStage_fulfilled (i : nat) (reply : Promise (option JSString))
    (ms : Z) (msg : JSString) (seg : StorySegment) :
  withTimeout (andThen (generateSegment i) reply) ms msg = Fulfilled seg ->
  index seg = i /\ text seg <> [] /\ audioBuffer seg = None.
Proof.
  intros H. apply withTimeout_fulfilled in H as [t [H _]].
  destruct reply as [[t' r]|]; [|discriminate]. simpl in H.
  inversion H as [[Ht Hr]].
  apply generateSegment_fulfilled in Hr as (H1 & H2 & H3 & _). auto.
Qed.

Lemma in_replaceAt (A : Type) (k : nat) (x y : A) (l : list A) :
  In y (replaceAt k x l) -> y = x \/ In y l.
Proof.
  revert k. induction l as [|z l IH]; intros [|k]; simpl; try tauto.
  - intros [H|H]; auto.
  - intros [H|H]; auto. apply IH in H. tauto.
Qed.

Lemma in_removeAt (A : Type) (k : nat) (y : A) (l : list A) :
  In y (removeAt k l) -> In y l.
Proof.
  revert k. induction l as [|z l IH]; intros [|k]; simpl; try tauto.
  intros [H|H]; auto. apply IH in H. tauto.
Qed.

Lemma nth_error_removeAt_single (A : Type) (k : nat) (x : A) (l : list A) :
  length l <= 1 -> nth_error l k = Some x -> removeAt k l = [].
Proof.
  intros Hl Hn. destruct (nth_error_single _ _ Hl Hn) as [Hp Hk].
  now rewrite Hp, Hk.
Qed.

Lemma step_sorted (E : AppStateEnum) (sys : System) (ev : App.Event) :
  storySorted (app sys) /\ pendingIndexed sys ->
  storySorted (app (App.step E sys ev)) /\ pendingIndexed (App.step E sys ev).
Proof.
  intros [Hst Hpi].
  destruct ev as [|playhead|k reply|k audio| |d o t a]; simpl.
  - unfold schedulerEffect.
    destruct (schedulerRequest E (app sys)); [|now split].
    unfold generateNextSegment.
    destruct (route (app sys)); [|now split].
    destruct (App.story (app sys)) eqn:Hs; [|now split].
    destruct (isGeneratingRef (app sys)); [now split|]. split.
    + intros s Hs'. simpl in Hs'. apply Hst. congruence.
    + intros inv sd Hin Hstage. simpl in Hin.
      apply in_app_or in Hin as [Hin|[Hin|[]]].
      * now apply Hpi.
      * subst inv. discriminate.
  - now split.
  - unfold textSettled.
    destruct (nth_error (pending sys) k) as [[i req [|sd]]|] eqn:Hn;
      try now split.
    destruct (withTimeout _ _ _) as [seg|e] eqn:Hw.
    + split; [exact Hst|]. intros inv sd Hin Hstage. simpl in Hin.
      apply in_replaceAt in Hin as [Hin|Hin]; [|now apply Hpi].
      subst inv. simpl in *. inversion Hstage; subst sd.
      now apply textStage_fulfilled in Hw.
    + split; [exact Hst|]. intros inv sd Hin Hstage. simpl in Hin.
      apply in_removeAt in Hin. now apply Hpi.
  - unfold audioSettled.
    destruct (nth_error (pending sys) k) as [[i req [|sd]]|] eqn:Hn;
      try now split.
    assert (index sd = i) as Hi.
    { apply (Hpi (mkInvocation i req (AwaitAudio sd)) sd);
        [now apply nth_error_In in Hn | reflexivity]. }
    assert (pendingIndexed (finish k (app sys) sys)) as Hfin.
    { intros inv sd' Hin Hstage. simpl in Hin. apply in_removeAt in Hin.
      now apply Hpi. }
    destruct (withTimeout _ _ _) as [buf|e]; [|now split].
    split; [|exact Hfin].
    intros s Hs. simpl in Hs.
    destruct (App.story (app sys)) as [p|] eqn:Hp; [|discriminate].
    apply (storeSegment_sorted sd buf p Hi); [now apply Hst | assumption].
  - split; [|exact Hpi]. intros s Hs. discriminate.
  - split; [|exact Hpi]. unfold handleGenerateStory.
    destruct (withTimeout (outlinePromise _ o) _ _);
      [|intros s Hs; now apply Hst].
    destruct (withTimeout (andThen _ t) _ _); [|intros s Hs; now apply Hst].
    destruct (withTimeout a _ _); [|intros s Hs; now apply Hst].
    intros s Hs. simpl in Hs. inversion Hs. simpl. repeat constructor.
Qed.

(** X1.  In every reachable state of the application, resets and restarts
    included, the stored segments are strictly increasing by index. *)
Theorem reachable_store_sorted (E : AppStateEnum) (evs : list App.Event)
    (s : AudioStory) :
  App.story (app (App.run E (initialSystem E) evs)) = Some s ->
  StronglySorted lt (map index (segments s)) /\
  NoDup (map index (segments s)).
Proof.
  assert (forall sys,
            storySorted (app sys) /\ pendingIndexed sys ->
            storySorted (app (App.run E sys evs))) as Hrun.
  { induction evs as [|ev evs IH]; simpl; intros sys Hinv.
    - tauto.
    - apply IH. now apply step_sorted. }
  intros Hs.
  assert (StronglySorted lt (map index (segments s))) as Hsorted.
  { apply (Hrun (initialSystem E)); [|assumption]. split.
    - intros s' Hs'. discriminate.
    - intros inv sd []. }
  split; [assumption | now apply strict_nodup].
Qed.

Lemma seq_strict (a n : nat) : StronglySorted lt (seq a n).
Proof.
  revert a. induction n as [|n IH]; intros a; simpl; constructor.
  - apply IH.
  - apply Forall_forall. intros x Hx. apply in_seq in Hx. lia.
Qed.

Lemma sorted_of_strict_index (l : list StorySegment) :
  StronglySorted lt (map index l) -> Sorted byIndex l.
Proof.
  induction l as [|a l IH]; simpl; intros Hs; constructor;
    inversion Hs as [|? ? Hs' Hall]; subst.
  - now apply IH.
  - destruct l as [|b l]; constructor. simpl in Hall.
    inversion Hall; subst. unfold byIndex. lia.
Qed.

(** Sorting a list that is already in index order returns it as it is. *)
Lemma sortBy_sorted_id (l : list StorySegment) :
  Sorted byIndex l -> sortBy compareIndex l = l.
Proof.
  induction l as [|a l IH]; simpl; intros Hs; [reflexivity|].
  inversion Hs as [|? ? Hs' Hhd]; subst.
  fold (sortBy compareIndex l). rewrite (IH Hs').
  destruct l as [|b l]; simpl; [reflexivity|].
  inversion Hhd; subst. unfold byIndex in *. unfold compareIndex.
  replace (0 <? Z.of_nat (index a) - Z.of_nat (index b))%Z with false;
    [reflexivity|]. symmetry. apply Z.ltb_ge. lia.
Qed.

Lemma existsb_index_absent (i : nat) (l : list StorySegment) :
  ~ In i (map index l) -> existsb (fun s => Nat.eqb (index s) i) l = false.
Proof.
  intros Hnot. destruct (existsb _ l) eqn:He; [|reflexivity].
  exfalso. apply Hnot. apply existsb_exists in He as [s [Hin Heq]].
  apply Nat.eqb_eq in Heq. subst i. now apply in_map.
Qed.

(** Storing segment n+1 into a store that holds segments 1..n appends it. *)
Lemma storeSegment_next (segmentData : StorySegment) (audio : AudioBuffer)
    (p : AudioStory) :
  map index (segments p) = seq 1 (length (segments p)) ->
  index segmentData = length (segments p) + 1 ->
  storeSegment (length (segments p) + 1) segmentData audio (Some p) =
  Some (mkAudioStory (totalSegmentsEstimate p) (outline p)
          (segments p ++ [withAudio segmentData audio])).
Proof.
  intros Hseq Hi. unfold storeSegment.
  rewrite existsb_index_absent.
  - f_equal. f_equal. apply sortBy_sorted_id, sorted_of_strict_index.
    rewrite map_app, Hseq. simpl. rewrite Hi.
    replace (seq 1 (length (segments p)) ++ [length (segments p) + 1])
      with (seq 1 (S (length (segments p)))).
    + apply seq_strict.
    + rewrite seq_S. f_equal. f_equal. lia.
  - rewrite Hseq. intros Hin. apply in_seq in Hin. lia.
Qed.

Lemma calculateTotalSegments_pos (d : Z) : 1 <= calculateTotalSegments d.
Proof. unfold calculateTotalSegments. lia. Qed.

Lemma start_session (E : AppStateEnum) (sys0 : System) (d : RouteDetails)
    (o : Promise (option (list JSString))) (t : Promise (option JSString))
    (a : Promise AudioBuffer) :
  App.story (app sys0) = None ->
  pending sys0 = [] ->
  isGeneratingRef (app sys0) = false ->
  sessionInv (App.step E sys0 (App.EvGenerateStory d o t a)).
Proof.
  intros Hs0 Hp0 Hf0. unfold sessionInv. cbn [App.step app pending].
  split; [|split].
  - unfold mutexInv. cbn [app pending].
    rewrite handleGenerateStory_flag, Hp0, Hf0. repeat split; auto.
  - intros inv sd Hin. rewrite Hp0 in Hin. destruct Hin.
  - unfold handleGenerateStory.
    destruct (withTimeout (outlinePromise _ o) _ _);
      [|cbn [startFailed App.story]; now rewrite Hs0].
    destruct (withTimeout (andThen _ t) _ _) as [seg|] eqn:Hw;
      [|cbn [startFailed App.story]; now rewrite Hs0].
    destruct (withTimeout a _ _);
      [|cbn [startFailed App.story]; now rewrite Hs0].
    cbn [App.story segments totalSegmentsEstimate map length withAudio index
         seq].
    apply textStage_fulfilled in Hw as [Hi _]. rewrite Hi.
    pose proof (calculateTotalSegments_pos (durationSeconds d)).
    split; [reflexivity|]. split; [lia|].
    intros inv Hin. rewrite Hp0 in Hin. destruct Hin.
Qed.

Lemma finish_story (k : nat) (st : State) (sys : System) :
  App.story (app (finish k st sys)) = App.story st.
Proof. reflexivity. Qed.

Lemma step_session (E : AppStateEnum) (sys : System) (ev : App.Event) :
  inSession ev = true -> sessionInv sys -> sessionInv (App.step E sys ev).
Proof.
  intros Hev (Hmx & Hpi & Hst).
  assert (storySorted (app sys)) as Hsorted.
  { intros s Hs. rewrite Hs in Hst. destruct Hst as [Hseq _].
    rewrite Hseq. apply seq_strict. }
  assert (isReset ev = false) as Hnr by (destruct ev; auto; discriminate).
  split; [now apply step_mutex|].
  split; [now apply step_sorted|].
  destruct Hmx as [Hflag Hlen].
  destruct ev as [|playhead|k reply|k audio| |d o t a];
    cbn [App.step]; try discriminate.
  - (* render *)
    unfold schedulerEffect.
    destruct (schedulerRequest E (app sys)) as [i|] eqn:Hreq; [|exact Hst].
    apply schedulerRequest_some in Hreq
      as (s & r & Hs & Hr & _ & _ & Htot & Hf & Hi).
    unfold generateNextSegment. rewrite Hs, Hr, Hf.
    cbn [app pending setGenerating App.story].
    rewrite Hs in *. destruct Hst as (Hseq & Hbound & _).
    apply Hflag in Hf. rewrite Hf.
    split; [assumption|]. split; [assumption|].
    intros inv [Hin|[]]. subst inv. simpl. lia.
  - exact Hst.
  - (* text stage settles *)
    unfold textSettled.
    destruct (nth_error (pending sys) k) as [[i req [|sd]]|] eqn:Hn;
      try exact Hst.
    destruct (nth_error_single _ _ Hlen Hn) as [Hp Hk].
    destruct (App.story (app sys)) as [s|] eqn:Hs;
      [|rewrite Hst in Hp; discriminate].
    destruct Hst as (Hseq & Hbound & Hinv).
    destruct (withTimeout _ _ _).
    + cbn [app pending]. rewrite Hs.
      split; [assumption|]. split; [assumption|].
      rewrite Hp, Hk. intros inv [Hin|[]]. subst inv.
      apply (Hinv (mkInvocation i req AwaitText)). rewrite Hp. now left.
    + rewrite finish_story, Hs. cbn [finish pending]. rewrite Hp, Hk.
      split; [assumption|]. split; [assumption|]. intros inv [].
  - (* audio stage settles *)
    unfold audioSettled.
    destruct (nth_error (pending sys) k) as [[i req [|sd]]|] eqn:Hn;
      try exact Hst.
    destruct (nth_error_single _ _ Hlen Hn) as [Hp Hk].
    destruct (App.story (app sys)) as [s|] eqn:Hs;
      [|rewrite Hst in Hp; discriminate].
    destruct Hst as (Hseq & Hbound & Hinv).
    assert (index sd = i) as Hisd.
    { apply (Hpi (mkInvocation i req (AwaitAudio sd)) sd);
        [rewrite Hp; now left | reflexivity]. }
    destruct (Hinv (mkInvocation i req (AwaitAudio sd)))
      as [Hi Htot]; [rewrite Hp; now left|]. cbn [inv_index] in Hi.
    destruct (withTimeout _ _ _) as [buf|e];
      rewrite finish_story; cbn [finish pending]; rewrite Hp, Hk;
      cbn [removeAt].
    + change (App.story (setStory (storeSegment i sd buf) (app sys)))
        with (storeSegment i sd buf (App.story (app sys))).
      rewrite Hs, Hi. rewrite storeSegment_next by congruence.
      cbn [segments totalSegmentsEstimate].
      rewrite map_app, length_app, Hseq.
      cbn [map length withAudio index].
      replace (length (segments s) + 1) with (S (length (segments s))) by lia.
      rewrite seq_S.
      split; [f_equal; f_equal; lia|]. split; [lia|]. intros inv [].
    + rewrite Hs.
      split; [assumption|]. split; [assumption|]. intros inv [].
Qed.

(** X2.  A session that starts from the planning screen with nothing in
    flight (no story, no pending invocation, flag clear; in particular the
    first session after mount) holds, as long as it is neither reset nor
    restarted, exactly the segments 1..n in order, with n between 1 and the
    estimated total, and an invocation in flight is generating segment
    n+1. *)
Theorem session_store_contiguous (E : AppStateEnum) (sys0 : System)
    (d : RouteDetails) (o : Promise (option (list JSString)))
    (t : Promise (option JSString)) (a : Promise AudioBuffer)
    (evs : list App.Event) (s : AudioStory) :
  App.story (app sys0) = None ->
  pending sys0 = [] ->
  isGeneratingRef (app sys0) = false ->
  forallb inSession evs = true ->
  let sys :=
    App.run E (App.step E sys0 (App.EvGenerateStory d o t a)) evs in
  App.story (app sys) = Some s ->
  map index (segments s) = seq 1 (length (segments s)) /\
  1 <= length (segments s) <= totalSegmentsEstimate s /\
  inFlight sys <= 1 /\
  forall inv, In inv (pending sys) -> inv_index inv = length (segments s) + 1.
Proof.
  intros Hs0 Hp0 Hf0 Hall sys Hs.
  assert (forall sys1, sessionInv sys1 -> sessionInv (App.run E sys1 evs))
    as Hrun.
  { clear sys Hs. induction evs as [|ev evs IH]; simpl; intros sys1 Hinv.
    - assumption.
    - simpl in Hall. apply andb_prop in Hall as [Hev Hall].
      apply IH; [assumption|]. now apply step_session. }
  destruct (Hrun _ (start_session E sys0 d o t a Hs0 Hp0 Hf0))
    as ((_ & Hlen) & _ & Hst).
  fold sys in Hst, Hlen. rewrite Hs in Hst.
  destruct Hst as (Hseq & Hb & Hinv).
  split; [assumption|]. split; [assumption|]. split; [exact Hlen|].
  intros inv Hin. now apply Hinv.
Qed.

Lemma session_store_contiguous_witness :
  map index (segments sessionStory) = seq 1 (length (segments sessionStory)) /\
  1 <= length (segments sessionStory) <= totalSegmentsEstimate sessionStory /\
  inFlight (App.run sampleEnum
              (App.step sampleEnum afterReset
                 (App.EvGenerateStory sampleRoute okOutline okText okAudio))
              sessionTrace) <= 1 /\
  forall inv,
    In inv (pending (App.run sampleEnum
                       (App.step sampleEnum afterReset
                          (App.EvGenerateStory sampleRoute okOutline okText
                                               okAudio))
                       sessionTrace)) ->
    inv_index inv = length (segments sessionStory) + 1.
Proof.
  exact (@session_store_contiguous sampleEnum afterReset sampleRoute
           okOutline okText okAudio sessionTrace sessionStory
           eq_refl eq_refl eq_refl eq_refl eq_refl).
Defined.

(** *** The number of segments *)

Lemma calculateTotalSegments_bounds (d : Z) :
  (1 <= Z.of_nat (calculateTotalSegments d))%Z /\
  (d <= 0 -> Z.of_nat (calculateTotalSegments d) = 1)%Z /\
  (0 < d ->
   60 * (Z.of_nat (calculateTotalSegments d) - 1) < d
   <= 60 * Z.of_nat (calculateTotalSegments d))%Z.
Proof.
  unfold calculateTotalSegments, TARGET_SEGMENT_DURATION_SEC.
  pose proof (Z.div_mod (- d) 60 ltac:(lia)) as Hdm.
  pose proof (Z.mod_pos_bound (- d) 60 ltac:(lia)) as Hm.
  rewrite Z2Nat.id by lia.
  split; [lia|]. split; intros Hd; lia.
Qed.

(** X4.  [calculateTotalSegments] is the ceiling of the duration over 60 seconds,
    and 1 for durations that are not positive. *)
Theorem calculateTotalSegments_ceiling (d : Z) :
  let n := Z.of_nat (calculateTotalSegments d) in
  (1 <= n)%Z /\
  (d <= 0 -> n = 1)%Z /\
  (0 < d -> 60 * (n - 1) < d <= 60 * n)%Z.
Proof. exact (calculateTotalSegments_bounds d). Qed.

Lemma calculateTotalSegments_ceiling_witness :
  (60 * (Z.of_nat (calculateTotalSegments 901) - 1) < 901
   <= 60 * Z.of_nat (calculateTotalSegments 901))%Z.
Proof.
  exact (proj2 (proj2 (calculateTotalSegments_ceiling 901)) ltac:(lia)).
Defined.

(** *** The outline *)

Lemma nth_error_repeat (A : Type) (x : A) (n k : nat) :
  k < n -> nth_error (repeat x n) k = Some x.
Proof.
  revert k. induction n as [|n IH]; intros k Hk; [lia|].
  destruct k as [|k]; simpl; [reflexivity|]. apply IH. lia.
Qed.

Lemma generateStoryOutline_length (totalSegments : nat)
    (reply : option (list JSString)) :
  length (generateStoryOutline totalSegments reply) = totalSegments.
Proof.
  unfold generateStoryOutline, sliceTo.
  destruct reply as [[|b parsed]|]; try apply repeat_length.
  rewrite length_firstn, length_app, repeat_length. lia.
Qed.

(** X5.  Whatever the model answers, the outline has exactly the requested
    number of beats: the parsed beats in order, cut to that number or
    padded with the continuation beat, and the fallback beat throughout
    when nothing usable was parsed. *)
Theorem outline_has_requested_length (totalSegments : nat)
    (reply : option (list JSString)) :
  length (generateStoryOutline totalSegments reply) = totalSegments /\
  (forall k,
     k < totalSegments ->
     nth_error (generateStoryOutline totalSegments reply) k =
     Some (match reply with
           | Some (b :: parsed) => nth k (b :: parsed) outlinePadBeat
           | _ => outlineFallbackBeat
           end)).
Proof.
  unfold generateStoryOutline, sliceTo.
  destruct reply as [[|b parsed]|].
  - split; [apply repeat_length|]. intros k Hk. now apply nth_error_repeat.
  - set (outline := b :: parsed). split.
    + rewrite length_firstn, length_app, repeat_length. lia.
    + intros k Hk. rewrite nth_error_firstn.
      replace (k <? totalSegments) with true
        by (symmetry; apply Nat.ltb_lt; lia).
      destruct (Nat.lt_ge_cases k (length outline)) as [Hlt|Hge].
      * rewrite nth_error_app1 by assumption.
        now apply nth_error_nth'.
      * rewrite nth_error_app2 by assumption.
        rewrite nth_error_repeat by lia.
        now rewrite nth_overflow.
  - split; [apply repeat_length|]. intros k Hk. now apply nth_error_repeat.
Qed.

Lemma outline_has_requested_length_witness :
  nth_error (generateStoryOutline 3 (Some [ofAscii "a"])) 2 =
  Some (nth 2 [ofAscii "a"] outlinePadBeat).
Proof.
  exact (proj2 (outline_has_requested_length 3 (Some [ofAscii "a"])) 2
               ltac:(lia)).
Defined.

(** *** Starting a story *)

Lemma startsWith_spec (needle hay : JSString) :
  startsWith needle hay = true <-> exists post, hay = needle ++ post.
Proof.
  revert hay. induction needle as [|a needle IH]; intros hay; simpl.
  - split; eauto.
  - destruct hay as [|b hay].
    + split; [discriminate|]. intros [post H]. discriminate.
    + rewrite andb_true_iff, N.eqb_eq, IH. split.
      * intros [Hab [post Hp]]. exists post. now subst.
      * intros [post Hp]. inversion Hp. eauto.
Qed.

(** [includes] finds exactly the contiguous occurrences. *)
Lemma includes_spec (needle hay : JSString) :
  includes needle hay = true <-> exists pre post, hay = pre ++ needle ++ post.
Proof.
  induction hay as [|b hay IH].
  - simpl. rewrite orb_false_r, startsWith_spec. split.
    + intros [post H]. exists [], post. exact H.
    + intros [pre [post H]]. destruct pre; [eauto|discriminate].
  - change (includes needle (b :: hay))
      with (startsWith needle (b :: hay) || includes needle hay).
    rewrite orb_true_iff, startsWith_spec, IH. split.
    + intros [[post H]|[pre [post H]]].
      * exists [], post. exact H.
      * exists (b :: pre), post. simpl. now rewrite H.
    + intros [[|c pre] [post H]].
      * left. exists post. exact H.
      * right. inversion H. eauto.
Qed.

(** X7.  Which message a failed start shows: the timeout message exactly when
    the error's message contains "timed out" or "timeout", the general
    failure message otherwise.  Either way the state is PLANNING again and
    route and story are left as they are. *)
Theorem start_error_classification (E : AppStateEnum) (e : Error) (st : State) :
  let st' := startFailed E e st in
  let mentions w :=
    exists pre post, message e = pre ++ ofAscii w ++ post in
  appState st' = PLANNING E /\
  App.story st' = App.story st /\
  route st' = route st /\
  (mentions "timed out"%string \/ mentions "timeout"%string ->
   generationError st' = Some msgStartTimedOut) /\
  (~ (mentions "timed out"%string \/ mentions "timeout"%string) ->
   generationError st' = Some msgStartFailed).
Proof.
  cbv zeta. unfold startFailed. cbn [appState App.story route generationError].
  split; [reflexivity|]. split; [reflexivity|]. split; [reflexivity|].
  assert (includes (ofAscii "timed out") (message e)
          || includes (ofAscii "timeout") (message e) = true <->
          (exists pre post, message e = pre ++ ofAscii "timed out" ++ post) \/
          (exists pre post, message e = pre ++ ofAscii "timeout" ++ post))
    as Hiff.
  { now rewrite orb_true_iff, !includes_spec. }
  split.
  - intros Hm. apply Hiff in Hm as Hinc. rewrite Hinc.
    replace (truthy (message e)) with true; [reflexivity|].
    destruct (message e) as [|c m] eqn:Hmsg; [|reflexivity].
    destruct Hm as [[pre [post H]]|[pre [post H]]];
      destruct pre; discriminate.
  - intros Hm.
    destruct (includes (ofAscii "timed out") (message e)
              || includes (ofAscii "timeout") (message e)) eqn:Hinc.
    + exfalso. apply Hm. now apply Hiff.
    + now rewrite andb_false_r.
Qed.

Lemma start_error_classification_witness :
  generationError
    (startFailed sampleEnum (mkError (ofAscii "Request timeout"))
                 (sampleState 0 5 0))
  = Some msgStartTimedOut.
Proof.
  refine (proj1 (proj2 (proj2 (proj2
            (start_error_classification sampleEnum
               (mkError (ofAscii "Request timeout")) (sampleState 0 5 0)))))
            _).
  right. exists (ofAscii "Request "), []. reflexivity.
Defined.

(** X6.  A start either fails, leaving the state PLANNING with the story and the
    flag untouched and one of the two messages shown, or it succeeds, and
    then all three calls settled no later than their deadlines (60, 60 and
    100 seconds after they were made), the state is
    READY_TO_PLAY, no error is shown, and the story consists of the first
    segment alone (index 1, non-empty text, audio) with an outline of
    exactly the estimated number of beats. *)
Theorem story_start_outcome (E : AppStateEnum) (d : RouteDetails)
    (o : Promise (option (list JSString))) (t : Promise (option JSString))
    (a : Promise AudioBuffer) (st : State) :
  let st' := handleGenerateStory E d o t a st in
  route st' = Some d /\
  isGeneratingRef st' = isGeneratingRef st /\
  currentPlayingIndex st' = currentPlayingIndex st /\
  ((appState st' = PLANNING E /\
    App.story st' = App.story st /\
    (generationError st' = Some msgStartFailed \/
     generationError st' = Some msgStartTimedOut))
   \/
   (exists t1 t2 t3 parsed text audio,
      o = Some (t1, parsed) /\ (t1 <= 60000)%Z /\
      t = Some (t2, Fulfilled (Some text)) /\ (t2 <= 60000)%Z /\ text <> [] /\
      a = Some (t3, Fulfilled audio) /\ (t3 <= 100000)%Z /\
      appState st' = READY_TO_PLAY E /\
      generationError st' = None /\
      exists beats,
        length beats = calculateTotalSegments (durationSeconds d) /\
        App.story st' =
          Some (mkAudioStory (calculateTotalSegments (durationSeconds d)) beats
                  [mkStorySegment 1 text (Some audio)]))).
Proof.
  cbv zeta. unfold handleGenerateStory.
  assert (forall e st0,
            appState (startFailed E e st0) = PLANNING E /\
            App.story (startFailed E e st0) = App.story st0 /\
            (generationError (startFailed E e st0) = Some msgStartFailed \/
             generationError (startFailed E e st0) = Some msgStartTimedOut))
    as Hfail.
  { intros e st0. unfold startFailed. simpl.
    split; [reflexivity|]. split; [reflexivity|].
    destruct (truthy (message e) && _); auto. }
  set (st1 := mkState (GENERATING_INITIAL_SEGMENT E) _ _ _ _ _ _).
  destruct (withTimeout (outlinePromise _ o) _ _) as [beats|e1] eqn:Ho.
  2: { repeat (split; [reflexivity|]). left.
       destruct (Hfail e1 st1) as (A & B & C).
       split; [exact A|]. split; [exact B | exact C]. }
  destruct (withTimeout (andThen _ t) _ _) as [seg|e2] eqn:Ht.
  2: { repeat (split; [reflexivity|]). left.
       destruct (Hfail e2 st1) as (A & B & C).
       split; [exact A|]. split; [exact B | exact C]. }
  destruct (withTimeout a _ _) as [audio|e3] eqn:Ha.
  2: { repeat (split; [reflexivity|]). left.
       destruct (Hfail e3 st1) as (A & B & C).
       split; [exact A|]. split; [exact B | exact C]. }
  repeat (split; [reflexivity|]). right.
  apply withTimeout_fulfilled in Ho as [t1 [Ho Ht1]].
  apply withTimeout_fulfilled in Ht as [t2 [Ht Ht2]].
  apply withTimeout_fulfilled in Ha as [t3 [Ha Ht3]].
  destruct o as [[t1' r1]|]; [|discriminate].
  cbn [outlinePromise andThen] in Ho.
  inversion Ho as [[Hta Hra]]. subst t1'.
  destruct t as [[t2' r2]|]; [|discriminate]. simpl in Ht.
  inversion Ht as [[Htb Hrb]]. subst t2'.
  apply generateSegment_fulfilled in Hrb as (Hi & Hne & Hnone & Hr2).
  exists t1, t2, t3, r1, (text seg), audio.
  repeat (split; [first [reflexivity | assumption | congruence]|]).
  exists beats. split.
  - destruct r1 as [parsed|e]; inversion Hra;
      first [apply generateStoryOutline_length | apply repeat_length].
  - simpl. unfold withAudio. now rewrite Hi.
Qed.

(** *** The continuity context *)

(** X9.  The context handed to the text stage is a suffix of the stored texts
    joined by single spaces, 3000 code units long or the whole of it when
    it is shorter. *)
Theorem allPreviousText_is_suffix (s : AudioStory) :
  let joined := join [32%N] (map text (segments s)) in
  (exists dropped, joined = dropped ++ allPreviousText s) /\
  length (allPreviousText s) = Nat.min (length joined) 3000.
Proof.
  cbv zeta. unfold allPreviousText.
  rewrite (sliceFrom_tail (n := 3000)) by lia. split.
  - eexists. symmetry. apply firstn_skipn.
  - rewrite length_skipn. lia.
Qed.

(** *** No story without a start *)

(** X3.  Nothing but a successful [handleGenerateStory] creates a story: from
    the initial state, renders, playhead moves, resets and completions of
    awaited calls leave the story absent and start no generation. *)
Theorem no_story_without_start (E : AppStateEnum) (evs : list App.Event) :
  forallb (fun ev =>
             match ev with
             | App.EvGenerateStory _ _ _ _ => false
             | _ => true
             end) evs = true ->
  App.story (app (App.run E (initialSystem E) evs)) = None /\
  pending (App.run E (initialSystem E) evs) = [].
Proof.
  assert (forall sys,
            App.story (app sys) = None /\ pending sys = [] ->
            forallb (fun ev =>
                       match ev with
                       | App.EvGenerateStory _ _ _ _ => false
                       | _ => true
                       end) evs = true ->
            App.story (app (App.run E sys evs)) = None /\
            pending (App.run E sys evs) = []) as Hrun.
  { induction evs as [|ev evs IH]; simpl; intros sys Hinv Hall.
    - assumption.
    - apply andb_prop in Hall as [Hev Hall]. apply IH; [|assumption].
      destruct Hinv as [Hs Hp].
      destruct ev as [|playhead|k reply|k audio| |d o t a]; simpl;
        try discriminate.
      + unfold schedulerEffect, schedulerRequest. now rewrite Hs.
      + now split.
      + unfold textSettled. rewrite Hp. destruct k; now split.
      + unfold audioSettled. rewrite Hp. destruct k; now split.
      + now split. }
  intros Hall. now apply Hrun.
Qed.

Lemma no_story_without_start_witness :
  App.story (app (App.run sampleEnum (initialSystem sampleEnum)
                    [App.EvRender; App.EvAudioSettled 0 okAudio; App.EvReset]))
  = None.
Proof.
  exact (proj1 (@no_story_without_start sampleEnum
                  [App.EvRender; App.EvAudioSettled 0 okAudio; App.EvReset]
                  eq_refl)).
Defined.

(** *** Routes that reach the story *)

(** X10.  A route is handed on only when both places are given, the maps service
    is loaded and the directions service found a route of at most four
    hours; the story planned for it has between 1 and 240 segments. *)
Theorem accepted_route_bounds (startInput endInput : option JSString)
    (startAddress endAddress : JSString) (mapsLoaded : bool)
    (travelMode : TravelMode) (selectedStyle : StoryStyle)
    (reply : RoutePlanner.DirectionsReply) (details : RouteDetails) :
  RoutePlanner.handleCalculate startInput endInput startAddress endAddress
    mapsLoaded travelMode selectedStyle reply = RoutePlanner.RouteFound details ->
  RoutePlanner.inputOr startInput startAddress <> [] /\
  RoutePlanner.inputOr endInput endAddress <> [] /\
  mapsLoaded = true /\
  (exists leg,
     reply = RoutePlanner.ReplyOK leg /\
     durationSeconds details = RoutePlanner.duration_value leg) /\
  (durationSeconds details <= 14400)%Z /\
  1 <= calculateTotalSegments (durationSeconds details) <= 240.
Proof.
  unfold RoutePlanner.handleCalculate.
  destruct (RoutePlanner.inputOr startInput startAddress) as [|c1 s1];
    [discriminate|].
  destruct (RoutePlanner.inputOr endInput endAddress) as [|c2 s2];
    [discriminate|].
  destruct mapsLoaded; [|discriminate]. cbn [truthy negb orb].
  unfold RoutePlanner.routeCallback.
  destruct reply as [leg| |]; try discriminate.
  destruct (RoutePlanner.duration_value leg >? 14400)%Z eqn:Hd;
    [discriminate|].
  intros H. inversion H. cbn [durationSeconds].
  assert (RoutePlanner.duration_value leg <= 14400)%Z as Hle.
  { rewrite Z.gtb_ltb in Hd. apply Z.ltb_ge in Hd. exact Hd. }
  split; [discriminate|]. split; [discriminate|]. split; [reflexivity|].
  split; [eauto|]. split; [assumption|].
  pose proof (calculateTotalSegments_bounds (RoutePlanner.duration_value leg))
    as (Hb1 & Hb2 & Hb3).
  destruct (Z_le_gt_dec (RoutePlanner.duration_value leg) 0); lia.
Qed.

Lemma accepted_route_bounds_witness :
  1 <= calculateTotalSegments 900 <= 240.
Proof.
  refine (proj2 (proj2 (proj2 (proj2 (proj2
    (@accepted_route_bounds (Some (ofAscii "A")) None [] (ofAscii "B") true
       WALKING NOIR
       (RoutePlanner.ReplyOK
          (RoutePlanner.mkLeg (ofAscii "A") (ofAscii "B") (ofAscii "1 km")
                              (ofAscii "15 mins") 900))
       (mkRouteDetails (ofAscii "A") (ofAscii "B") (ofAscii "1 km")
                       (ofAscii "15 mins") 900 WALKING (ofAscii "Kore") NOIR)
       eq_refl)))))).
Defined.

Lemma reachable_store_sorted_witness :
  StronglySorted lt (map index (segments sessionStory)) /\
  NoDup (map index (segments sessionStory)).
Proof.
  exact (@reachable_store_sorted sampleEnum
           (App.EvGenerateStory sampleRoute okOutline okText okAudio
              :: sessionTrace)
           sessionStory eq_refl).
Defined.

(** *** Sorting the store *)

(** X11.  The sort applied to the store returns a permutation of its input in
    non-decreasing index order, and returns a list that is already in index
    order unchanged. *)
Theorem sort_by_index_spec (l : list StorySegment) :
  Permutation (sortBy compareIndex l) l /\
  Sorted byIndex (sortBy compareIndex l) /\
  sortBy compareIndex (sortBy compareIndex l) = sortBy compareIndex l /\
  (Sorted byIndex l -> sortBy compareIndex l = l).
Proof.
  split; [apply sortBy_perm|]. split; [apply sortBy_index_sorted|].
  split; [apply sortBy_sorted_id, sortBy_index_sorted|].
  apply sortBy_sorted_id.
Qed.

Lemma sort_by_index_spec_witness :
  sortBy compareIndex [sampleSegment 1; sampleSegment 2]
  = [sampleSegment 1; sampleSegment 2].
Proof.
  refine (proj2 (proj2 (proj2
            (sort_by_index_spec [sampleSegment 1; sampleSegment 2]))) _).
  repeat constructor.
Defined.

(** *** When the timeout message is shown *)

Lemma withTimeout_rejected (T : Type) (promise : Promise T) (ms : Z)
    (msg : JSString) (e : Error) :
  withTimeout promise ms msg = Rejected e ->
  e = mkError msg \/
  exists t, promise = Some (t, Rejected e) /\ (t <= ms)%Z.
Proof.
  unfold withTimeout. destruct promise as [[t r]|].
  - destruct (t <=? ms)%Z eqn:Ht.
    + intros H. subst r. right. exists t. split; [reflexivity|].
      now apply Z.leb_le.
    + intros H. inversion H. now left.
  - intros H. inversion H. now left.
Qed.

Lemma startFailed_timed_out (E : AppStateEnum) (e : Error) (st : State) :
  generationError (startFailed E e st) = Some msgStartTimedOut ->
  includes (ofAscii "timed out") (message e)
  || includes (ofAscii "timeout") (message e) = true.
Proof.
  unfold startFailed. cbn [generationError].
  destruct (includes (ofAscii "timed out") (message e)
            || includes (ofAscii "timeout") (message e)); [reflexivity|].
  rewrite andb_false_r. intros H. inversion H.
Qed.

(** X8.  The timeout message of a failed start is shown only when the text or
    the audio call itself fails, within its deadline, with an error whose
    message contains "timed out" or "timeout"; a deadline that passes, for
    the outline, the text or the audio, never shows it. *)
Theorem timeout_message_only_when_reported (E : AppStateEnum)
    (d : RouteDetails) (o : Promise (option (list JSString)))
    (t : Promise (option JSString)) (a : Promise AudioBuffer) (st : State) :
  generationError (handleGenerateStory E d o t a st) = Some msgStartTimedOut ->
  exists settledAt e,
    ((t = Some (settledAt, Rejected e) /\ (settledAt <= 60000)%Z) \/
     (a = Some (settledAt, Rejected e) /\ (settledAt <= 100000)%Z)) /\
    includes (ofAscii "timed out") (message e)
    || includes (ofAscii "timeout") (message e) = true.
Proof.
  unfold handleGenerateStory.
  destruct (withTimeout (outlinePromise _ o) _ _) as [beats|e1] eqn:Ho.
  - destruct (withTimeout (andThen _ t) _ _) as [seg|e2] eqn:Ht.
    + destruct (withTimeout a _ _) as [audio|e3] eqn:Ha; [discriminate|].
      intros H. apply startFailed_timed_out in H.
      apply withTimeout_rejected in Ha as [Ha|[t3 [Ha Hlt]]].
      * subst e3. discriminate.
      * exists t3, e3. split; [right; now split | assumption].
    + intros H. apply startFailed_timed_out in H.
      apply withTimeout_rejected in Ht as [Ht|[t2 [Ht Hlt]]].
      * subst e2. discriminate.
      * destruct t as [[t2' r2]|]; [|discriminate].
        cbn [andThen] in Ht. inversion Ht as [[Hta Hr]]. subst t2'.
        destruct r2 as [[[|c txt]|]|e]; cbn [generateSegment] in Hr;
          inversion Hr; subst e2; try discriminate.
        exists t2, e. split; [left; now split | assumption].
  - intros H. apply startFailed_timed_out in H.
    apply withTimeout_rejected in Ho as [Ho|[t1 [Ho Hlt]]].
    + subst e1. discriminate.
    + destruct o as [[t1' r1]|]; [|discriminate].
      cbn [outlinePromise andThen] in Ho. destruct r1; discriminate.
Qed.

Lemma timeout_message_only_when_reported_witness :
  exists settledAt e,
    ((failingText = Some (settledAt, Rejected e) /\ (settledAt <= 60000)%Z) \/
     (okAudio = Some (settledAt, Rejected e) /\ (settledAt <= 100000)%Z)) /\
    includes (ofAscii "timed out") (message e)
    || includes (ofAscii "timeout") (message e) = true.
Proof.
  exact (@timeout_message_only_when_reported sampleEnum sampleRoute okOutline
           failingText okAudio (sampleState 0 5 0) eq_refl).
Defined.

(* ================================================================= *)
(** ** The playback engine *)

Import StoryPlayer.

Lemma SFcompare_lt_gt (x y : spec_float) :
  SFcompare x y = Some Lt -> SFcompare y x = Some Gt.
Proof.
  destruct x as [sx|sx| |sx mx ex], y as [sy|sy| |sy my ey]; simpl;
    try destruct sx; try destruct sy; simpl; try congruence.
  all: rewrite (Z.compare_antisym ex ey); destruct (Z.compare ex ey); simpl;
    try congruence.
  all: change (Pos.compare_cont Eq my mx) with (Pos.compare my mx);
    change (Pos.compare_cont Eq mx my) with (Pos.compare mx my);
    rewrite (Pos.compare_antisym mx my); destruct (Pos.compare mx my); simpl;
    congruence.
Qed.

(** On doubles, [x < y] excludes [y <= x]. *)
Lemma ltb_not_leb (x y : float) :
  (x <? y)%float = true -> (y <=? x)%float = false.
Proof.
  rewrite ltb_spec, leb_spec. unfold SFltb, SFleb.
  destruct (SFcompare (Prim2SF x) (Prim2SF y)) as [[| |]|] eqn:Hc;
    try discriminate.
  intros _. now rewrite (SFcompare_lt_gt _ _ Hc).
Qed.

Lemma hasAudio_some (seg : StorySegment) (buf : AudioBuffer) :
  audioBuffer seg = Some buf -> hasAudio (Some seg) = true.
Proof. intros H. unfold hasAudio. now rewrite H. Qed.

Lemma playSegment_ready (props : Props) (seg : StorySegment)
    (buf : AudioBuffer) (offset now : float) (p : Player) :
  audioBuffer seg = Some buf ->
  playSegment props (Some seg) offset now p =
  mkPlayer (isPlaying p) (currentSegmentIndex p) (isBuffering p)
           (autoScroll p) (Some running)
           (Some (mkSource seg buf offset props))
           (now - offset)%float (segmentOffsetRef p) (indexRef p).
Proof.
  intros Hb. unfold playSegment. rewrite Hb.
  unfold stopAudio. destruct (sourceRef p); reflexivity.
Qed.

(** C8.  When the player is buffering with the intent to play and a render
    sees audio for the segment at the cursor, the buffering effect clears
    the buffering state and starts that segment at offset 0, leaving the
    cursor and the playing intent as they are. *)
Theorem buffering_resolves (props : Props) (now : float) (p : Player)
    (seg : StorySegment) (buf : AudioBuffer) :
  isBuffering p = true ->
  isPlaying p = true ->
  nth_error (segments (story props)) (currentSegmentIndex p) = Some seg ->
  audioBuffer seg = Some buf ->
  let p' := step p (EvRender props now) in
  isBuffering p' = false /\
  isPlaying p' = true /\
  currentSegmentIndex p' = currentSegmentIndex p /\
  sourceRef p' = Some (mkSource seg buf 0%float props) /\
  startTimeRef p' = (now - 0)%float /\
  bufferingEffect props now p = playSegment props (Some seg) 0%float now
                                  (setIsBuffering false p).
Proof.
  intros Hb Hp Hn Ha.
  assert (forall q,
            isBuffering q = true -> isPlaying q = true ->
            currentSegmentIndex q = currentSegmentIndex p ->
            bufferingEffect props now q =
            playSegment props (Some seg) 0%float now (setIsBuffering false q))
    as Heff.
  { intros q Hqb Hqp Hqi. unfold bufferingEffect.
    rewrite Hqb, Hqp, Hqi, Hn, (hasAudio_some seg Ha). reflexivity. }
  change (step p (EvRender props now))
    with (bufferingEffect props now (syncIndexRef p)).
  cbv zeta. rewrite (Heff (syncIndexRef p) Hb Hp eq_refl).
  rewrite (Heff p Hb Hp eq_refl).
  rewrite !(@playSegment_ready _ seg buf _ _ _ Ha). simpl.
  repeat split; auto.
Qed.

Lemma buffering_resolves_witness :
  let p' := step bufferingPlayer (EvRender (sampleProps 2 5) 200%float) in
  isBuffering p' = false /\
  isPlaying p' = true /\
  currentSegmentIndex p' = 1 /\
  sourceRef p' =
    Some (mkSource (sampleSegment 2) sampleAudio 0%float (sampleProps 2 5)) /\
  startTimeRef p' = (200 - 0)%float /\
  bufferingEffect (sampleProps 2 5) 200%float bufferingPlayer =
    playSegment (sampleProps 2 5) (Some (sampleSegment 2)) 0%float 200%float
                (setIsBuffering false bufferingPlayer).
Proof.
  exact (@buffering_resolves (sampleProps 2 5) 200%float bufferingPlayer
           (sampleSegment 2) sampleAudio eq_refl eq_refl eq_refl eq_refl).
Defined.

(** C9.  An end-of-stream event that fires while the time elapsed since the
    segment started is below its duration minus 0.5 seconds changes nothing;
    the player changes only when the elapsed time has reached that bound,
    and then it is the end-of-segment handler that runs. *)
Theorem early_end_is_ignored (now : float) (p : Player) (src : Source) :
  sourceRef p = Some src ->
  let elapsed := (now - startTimeRef p)%float in
  let limit := (WebAudio.duration (src_buffer src) - 0.5)%float in
  ((elapsed <? limit)%float = true -> step p (EvEnded now) = p) /\
  ((limit <=? elapsed)%float = false -> step p (EvEnded now) = p) /\
  (step p (EvEnded now) <> p -> (limit <=? elapsed)%float = true) /\
  (forall c,
     audioContextRef p = Some c ->
     (limit <=? elapsed)%float = true ->
     step p (EvEnded now) = handleSegmentEnd (src_props src) now p).
Proof.
  intros Hs elapsed limit.
  assert ((limit <=? elapsed)%float = false -> step p (EvEnded now) = p) as Hign.
  { intros Hle. simpl. unfold onended. rewrite Hs.
    destruct (audioContextRef p); [|reflexivity].
    fold elapsed. fold limit. now rewrite Hle. }
  split; [|split; [|split]].
  - intros Hlt. apply Hign. now apply ltb_not_leb.
  - exact Hign.
  - intros Hne. destruct (limit <=? elapsed)%float eqn:Hle; [reflexivity|].
    exfalso. apply Hne. now apply Hign.
  - intros c Hc Hle. simpl. unfold onended. rewrite Hs, Hc.
    fold elapsed. fold limit. now rewrite Hle.
Qed.

Lemma early_end_is_ignored_witness :
  step playingPlayer (EvEnded 110%float) = playingPlayer.
Proof.
  exact (proj1 (@early_end_is_ignored 110%float playingPlayer
                  (mkSource (sampleSegment 1) sampleAudio 0%float
                            (sampleProps 2 5)) eq_refl) eq_refl).
Defined.

Lemma renderEffects_paused (props : Props) (now : float) (p : Player) :
  isPlaying p = false -> renderEffects props now p = syncIndexRef p.
Proof.
  intros Hp. unfold renderEffects, bufferingEffect. simpl.
  rewrite Hp. now rewrite andb_false_r.
Qed.

(** While the player is paused, renders leave everything but [indexRef]
    as it is. *)
Lemma renders_while_paused (renders : list Event) (p : Player) :
  forallb isRender renders = true ->
  isPlaying p = false ->
  let p' := run p renders in
  isPlaying p' = false /\
  isBuffering p' = isBuffering p /\
  currentSegmentIndex p' = currentSegmentIndex p /\
  segmentOffsetRef p' = segmentOffsetRef p /\
  sourceRef p' = sourceRef p /\
  startTimeRef p' = startTimeRef p /\
  audioContextRef p' = audioContextRef p.
Proof.
  revert p. induction renders as [|ev renders IH]; simpl; intros p Hall Hp.
  - repeat split; auto.
  - apply andb_prop in Hall as [Hev Hall].
    destruct ev; try discriminate. simpl.
    rewrite (renderEffects_paused _ _ _ Hp).
    specialize (IH (syncIndexRef p) Hall Hp). simpl in IH. exact IH.
Qed.

(** C10.  Pausing a playing segment stores as resume offset the output
    clock's reading minus the recorded start time, stops the source and
    leaves the cursor alone; whatever renders happen meanwhile, resuming
    starts the segment at the cursor from that stored offset, with the
    start time set back by it. *)
Theorem pause_then_resume (props : Props) (now : float) (p : Player)
    (c : ContextState) :
  isPlaying p = true ->
  isBuffering p = false ->
  audioContextRef p = Some c ->
  let paused := step p (EvToggle props now) in
  let offset := (now - startTimeRef p)%float in
  segmentOffsetRef paused = offset /\
  currentSegmentIndex paused = currentSegmentIndex p /\
  isPlaying paused = false /\
  sourceRef paused = None /\
  forall renders props' now' seg buf,
    forallb isRender renders = true ->
    nth_error (segments (story props')) (currentSegmentIndex p) = Some seg ->
    audioBuffer seg = Some buf ->
    let resumed := step (run paused renders) (EvToggle props' now') in
    isPlaying resumed = true /\
    isBuffering resumed = false /\
    currentSegmentIndex resumed = currentSegmentIndex p /\
    sourceRef resumed = Some (mkSource seg buf offset props') /\
    startTimeRef resumed = (now' - offset)%float.
Proof.
  intros Hp Hb Hc paused offset.
  assert (segmentOffsetRef paused = offset /\
          currentSegmentIndex paused = currentSegmentIndex p /\
          isPlaying paused = false /\ sourceRef paused = None)
    as (Ho & Hi & Hq & Hs).
  { unfold paused. simpl. unfold togglePlayback. rewrite Hp, Hc, Hb. simpl.
    unfold stopAudio. simpl.
    destruct (sourceRef p) eqn:Hsrc; simpl; repeat split; auto. }
  repeat (split; [assumption|]).
  intros renders props' now' seg buf Hall Hn Ha resumed.
  destruct (renders_while_paused renders paused Hall Hq)
    as (Hq' & _ & Hi' & Ho' & _ & _ & _).
  unfold resumed.
  change (step (run paused renders) (EvToggle props' now'))
    with (togglePlayback props' now' (run paused renders)).
  unfold togglePlayback.
  rewrite Hq', Hi', Hi, Hn, (hasAudio_some seg Ha).
  rewrite !(@playSegment_ready _ seg buf _ _ _ Ha). simpl.
  rewrite Hi', Hi, Ho', Ho. repeat split; auto.
Qed.

Lemma pause_then_resume_witness :
  segmentOffsetRef (step playingPlayer (EvToggle (sampleProps 2 5) 110%float))
  = (110 - 100)%float.
Proof.
  exact (proj1 (@pause_then_resume (sampleProps 2 5) 110%float playingPlayer
                  running eq_refl eq_refl eq_refl)).
Defined.

(* ================================================================= *)
(** ** Further properties of the playback engine *)

Lemma playSegment_missing (props : Props) (segment : option StorySegment)
    (offset now : float) (p : Player) :
  hasAudio segment = false ->
  playSegment props segment offset now p = setIsBuffering true p.
Proof.
  unfold hasAudio, playSegment. destruct segment as [seg|]; [|reflexivity].
  destruct (audioBuffer seg); [discriminate|reflexivity].
Qed.

Lemma hasAudio_inv (segment : option StorySegment) :
  hasAudio segment = true ->
  exists seg buf, segment = Some seg /\ audioBuffer seg = Some buf.
Proof.
  unfold hasAudio. destruct segment as [seg|]; [|discriminate].
  destruct (audioBuffer seg) as [buf|] eqn:Hb; [|discriminate]. eauto.
Qed.

Lemma playSegment_sourceInv (props : Props) (k : nat) (offset now : float)
    (p : Player) :
  sourceInv p ->
  sourceInv (playSegment props (nth_error (segments (story props)) k)
                         offset now p).
Proof.
  intros Hinv.
  destruct (hasAudio (nth_error (segments (story props)) k)) eqn:Ha.
  - apply hasAudio_inv in Ha as (seg & buf & Hn & Hb).
    rewrite Hn, (@playSegment_ready props seg buf offset now p Hb).
    intros src Hs. simpl in Hs. inversion Hs. simpl.
    split; [assumption|]. split; [|reflexivity].
    now apply nth_error_In in Hn.
  - rewrite playSegment_missing by assumption. exact Hinv.
Qed.

Lemma handleSegmentEnd_sourceInv (props : Props) (now : float) (p : Player) :
  sourceInv p -> sourceInv (handleSegmentEnd props now p).
Proof.
  intros Hinv. unfold handleSegmentEnd.
  destruct (hasAudio _).
  - apply playSegment_sourceInv. exact Hinv.
  - destruct (_ && _); exact Hinv.
Qed.

Lemma stopAudio_sourceRef (p : Player) : sourceRef (stopAudio p) = None.
Proof.
  unfold stopAudio. destruct (sourceRef p) eqn:Hs; [reflexivity|exact Hs].
Qed.

Lemma step_sourceInv (p : Player) (ev : Event) :
  sourceInv p -> sourceInv (step p ev).
Proof.
  intros Hinv. destruct ev as [props now|now|props now]; cbn [step].
  - unfold togglePlayback. destruct (isPlaying p).
    + intros src Hs. cbn [setAutoScroll setIsPlaying sourceRef] in Hs.
      rewrite stopAudio_sourceRef in Hs. discriminate.
    + destruct (hasAudio _).
      * assert (sourceInv
                  (playSegment props
                     (nth_error (segments (story props))
                                (currentSegmentIndex p))
                     (segmentOffsetRef (setIsPlaying true p)) now
                     (setIsBuffering false (setIsPlaying true p)))) as H
          by (apply playSegment_sourceInv; exact Hinv).
        exact H.
      * exact Hinv.
  - unfold onended. destruct (sourceRef p) eqn:Hs; [|exact Hinv].
    destruct (audioContextRef p); [|exact Hinv].
    destruct (_ <=? _)%float; [|exact Hinv].
    now apply handleSegmentEnd_sourceInv.
  - unfold renderEffects, bufferingEffect.
    destruct (_ && _ && _); [|exact Hinv].
    apply playSegment_sourceInv. exact Hinv.
Qed.

(** X12.  In every reachable state of the player the source node, if any, plays
    the buffer of the very segment its end handler reads the duration of,
    that segment is one of the story the handler was created with, and the
    audio context exists. *)
Theorem reachable_source_consistent (evs : list Event) (src : Source) :
  sourceRef (run initialPlayer evs) = Some src ->
  audioBuffer (src_segment src) = Some (src_buffer src) /\
  In (src_segment src) (segments (story (src_props src))) /\
  audioContextRef (run initialPlayer evs) = Some running.
Proof.
  assert (forall p, sourceInv p -> sourceInv (run p evs)) as Hrun.
  { induction evs as [|ev evs IH]; simpl; intros p Hinv.
    - assumption.
    - apply IH. now apply step_sourceInv. }
  apply (Hrun initialPlayer). intros src' Hs. discriminate.
Qed.

Lemma reachable_source_consistent_witness :
  audioBuffer (sampleSegment 1) = Some sampleAudio /\
  In (sampleSegment 1) (segments (story (sampleProps 2 5))) /\
  audioContextRef (run initialPlayer [EvToggle (sampleProps 2 5) 0%float])
  = Some running.
Proof.
  exact (@reachable_source_consistent [EvToggle (sampleProps 2 5) 0%float]
           (mkSource (sampleSegment 1) sampleAudio 0%float (sampleProps 2 5))
           eq_refl).
Defined.

Lemma playSegment_cursor (props : Props) (segment : option StorySegment)
    (offset now : float) (p : Player) :
  currentSegmentIndex (playSegment props segment offset now p)
  = currentSegmentIndex p /\
  isPlaying (playSegment props segment offset now p) = isPlaying p /\
  indexRef (playSegment props segment offset now p) = indexRef p /\
  segmentOffsetRef (playSegment props segment offset now p)
  = segmentOffsetRef p.
Proof.
  unfold playSegment. destruct segment as [seg|]; [|now repeat split].
  destruct (audioBuffer seg); [|now repeat split].
  unfold stopAudio. destruct (sourceRef p); now repeat split.
Qed.

(** X13.  The cursor moves only when an end-of-stream event passes the elapsed
    time guard, and then to the position after the one [indexRef] holds;
    toggling playback and rendering never move it. *)
Theorem cursor_moves_only_on_confirmed_end (p : Player) (ev : Event) :
  currentSegmentIndex (step p ev) <> currentSegmentIndex p ->
  exists now src,
    ev = EvEnded now /\
    sourceRef p = Some src /\
    (WebAudio.duration (src_buffer src) - 0.5 <=? now - startTimeRef p)%float
    = true /\
    currentSegmentIndex (step p ev) = indexRef p + 1.
Proof.
  destruct ev as [props now|now|props now]; cbn [step]; intros Hne.
  - exfalso. apply Hne. unfold togglePlayback. destruct (isPlaying p).
    + cbn [setAutoScroll setIsPlaying currentSegmentIndex].
      unfold stopAudio.
      destruct (audioContextRef p); [destruct (negb (isBuffering p))|];
        cbn [setSegmentOffset sourceRef];
        destruct (sourceRef p); reflexivity.
    + destruct (hasAudio _); [|reflexivity].
      cbn [setAutoScroll currentSegmentIndex].
      now rewrite (proj1 (playSegment_cursor _ _ _ _ _)).
  - unfold onended in *. destruct (sourceRef p) as [src|] eqn:Hs;
      [|now elim Hne].
    destruct (audioContextRef p); [|now elim Hne].
    destruct (WebAudio.duration (src_buffer src) - 0.5
              <=? now - startTimeRef p)%float eqn:Hg; [|now elim Hne].
    exists now, src.
    split; [reflexivity|]. split; [reflexivity|]. split; [exact Hg|].
    unfold handleSegmentEnd. destruct (hasAudio _).
    + now rewrite (proj1 (playSegment_cursor _ _ _ _ _)).
    + destruct (_ && _); reflexivity.
  - exfalso. apply Hne. unfold renderEffects, bufferingEffect.
    destruct (_ && _ && _); [|reflexivity].
    now rewrite (proj1 (playSegment_cursor _ _ _ _ _)).
Qed.

Lemma cursor_moves_only_on_confirmed_end_witness :
  exists now src,
    EvEnded 160%float = EvEnded now /\
    sourceRef playingPlayer = Some src /\
    (WebAudio.duration (src_buffer src) - 0.5
     <=? now - startTimeRef playingPlayer)%float = true /\
    currentSegmentIndex (step playingPlayer (EvEnded 160%float))
    = indexRef playingPlayer + 1.
Proof.
  refine (@cursor_moves_only_on_confirmed_end playingPlayer
            (EvEnded 160%float) _).
  vm_compute. discriminate.
Defined.

(** X14.  A segment ends while the handler's story does not yet hold the next
    one: the player moves the cursor on and buffers; the next render that
    sees the segment's audio starts it at offset 0.  This is how a segment
    stored after the current source was started gets played. *)
Theorem end_then_render_plays_next (p : Player) (src : Source)
    (c : ContextState) (now now' : float) (props' : Props)
    (seg : StorySegment) (buf : AudioBuffer) :
  sourceRef p = Some src ->
  audioContextRef p = Some c ->
  isPlaying p = true ->
  (WebAudio.duration (src_buffer src) - 0.5 <=? now - startTimeRef p)%float
  = true ->
  hasAudio (nth_error (segments (story (src_props src))) (indexRef p + 1))
  = false ->
  (totalSegmentsEstimate (story (src_props src)) <=? indexRef p + 1)
  && negb (isBackgroundGenerating (src_props src)) = false ->
  nth_error (segments (story props')) (indexRef p + 1) = Some seg ->
  audioBuffer seg = Some buf ->
  let ended := step p (EvEnded now) in
  let resumed := step ended (EvRender props' now') in
  isBuffering ended = true /\
  isPlaying ended = true /\
  currentSegmentIndex ended = indexRef p + 1 /\
  segmentOffsetRef ended = 0%float /\
  isBuffering resumed = false /\
  isPlaying resumed = true /\
  currentSegmentIndex resumed = indexRef p + 1 /\
  indexRef resumed = indexRef p + 1 /\
  sourceRef resumed = Some (mkSource seg buf 0%float props') /\
  startTimeRef resumed = (now' - 0)%float.
Proof.
  intros Hs Hc Hp Hg Hmiss Hfin Hn Hb ended resumed.
  assert (ended =
          setIsBuffering true
            (setSegmentOffset 0%float
               (setCurrentSegmentIndex (indexRef p + 1) p))) as He.
  { unfold ended. cbn [step]. unfold onended. rewrite Hs, Hc, Hg.
    unfold handleSegmentEnd. now rewrite Hmiss, Hfin. }
  assert (isBuffering ended = true /\ isPlaying ended = true /\
          currentSegmentIndex ended = indexRef p + 1 /\
          segmentOffsetRef ended = 0%float) as (H1 & H2 & H3 & H4).
  { rewrite He. simpl. auto. }
  repeat (split; [assumption|]).
  unfold resumed. cbn [step]. unfold renderEffects, bufferingEffect.
  cbn [syncIndexRef isBuffering isPlaying currentSegmentIndex].
  rewrite H1, H2, H3, Hn, (hasAudio_some seg Hb). cbn [andb].
  rewrite (@playSegment_ready _ seg buf _ _ _ Hb). simpl.
  rewrite H2, H3. repeat split; reflexivity.
Qed.

Lemma end_then_render_plays_next_witness :
  sourceRef (step (step playingPlayerAlone (EvEnded 160%float))
                  (EvRender (sampleProps 2 5) 161%float))
  = Some (mkSource (sampleSegment 2) sampleAudio 0%float (sampleProps 2 5)).
Proof.
  exact (proj1 (proj2 (proj2 (proj2 (proj2 (proj2 (proj2 (proj2 (proj2
    (@end_then_render_plays_next playingPlayerAlone
       (mkSource (sampleSegment 1) sampleAudio 0%float (sampleProps 1 5))
       running 160%float 161%float (sampleProps 2 5) (sampleSegment 2)
       sampleAudio eq_refl eq_refl eq_refl eq_refl eq_refl eq_refl eq_refl
       eq_refl)))))))))).
Defined.

(** X15.  Renders while the player is not buffering change nothing but
    [indexRef]: the source, its start time, the stored offset and the cursor
    stay as they are, so a growing store never restarts or interrupts the
    audio that is playing. *)
Theorem renders_keep_audio (renders : list Event) (p : Player) :
  forallb isRender renders = true ->
  isBuffering p = false ->
  let p' := run p renders in
  sourceRef p' = sourceRef p /\
  startTimeRef p' = startTimeRef p /\
  segmentOffsetRef p' = segmentOffsetRef p /\
  currentSegmentIndex p' = currentSegmentIndex p /\
  isPlaying p' = isPlaying p /\
  isBuffering p' = false /\
  indexRef p' = match renders with [] => indexRef p
                                 | _ :: _ => currentSegmentIndex p end.
Proof.
  revert p. induction renders as [|ev renders IH]; simpl; intros p Hall Hb.
  - repeat split; auto.
  - apply andb_prop in Hall as [Hev Hall].
    destruct ev as [|?|props now]; try discriminate. cbn [step].
    assert (renderEffects props now p = syncIndexRef p) as Hr.
    { unfold renderEffects, bufferingEffect. simpl. now rewrite Hb. }
    rewrite Hr. specialize (IH (syncIndexRef p) Hall Hb).
    cbv zeta in IH. simpl in IH.
    destruct IH as (I1 & I2 & I3 & I4 & I5 & I6 & I7).
    repeat (split; [assumption|]).
    rewrite I7. destruct renders; reflexivity.
Qed.

Lemma renders_keep_audio_witness :
  sourceRef (run playingPlayer [EvRender (sampleProps 3 5) 120%float])
  = sourceRef playingPlayer.
Proof.
  exact (proj1 (@renders_keep_audio [EvRender (sampleProps 3 5) 120%float]
                  playingPlayer eq_refl eq_refl)).
Defined.

(** X16.  Pausing while buffering keeps the stored offset and the buffering mark
    and drops the playing intent; audio arriving afterwards starts nothing
    by itself, and the next toggle starts the segment at the cursor from the
    stored offset. *)
Theorem pause_while_buffering (props : Props) (now : float) (p : Player) :
  isPlaying p = true ->
  isBuffering p = true ->
  let paused := step p (EvToggle props now) in
  isPlaying paused = false /\
  isBuffering paused = true /\
  sourceRef paused = None /\
  segmentOffsetRef paused = segmentOffsetRef p /\
  currentSegmentIndex paused = currentSegmentIndex p /\
  forall renders props' now' seg buf,
    forallb isRender renders = true ->
    nth_error (segments (story props')) (currentSegmentIndex p) = Some seg ->
    audioBuffer seg = Some buf ->
    sourceRef (run paused renders) = None /\
    isPlaying (run paused renders) = false /\
    let resumed := step (run paused renders) (EvToggle props' now') in
    isPlaying resumed = true /\
    isBuffering resumed = false /\
    sourceRef resumed = Some (mkSource seg buf (segmentOffsetRef p) props').
Proof.
  intros Hp Hb paused.
  assert (isPlaying paused = false /\ isBuffering paused = true /\
          sourceRef paused = None /\
          segmentOffsetRef paused = segmentOffsetRef p /\
          currentSegmentIndex paused = currentSegmentIndex p)
    as (H1 & H2 & H3 & H4 & H5).
  { unfold paused. cbn [step]. unfold togglePlayback. rewrite Hp, Hb.
    cbn [negb]. unfold stopAudio.
    destruct (audioContextRef p); destruct (sourceRef p) eqn:Hs; simpl;
      repeat split; auto. }
  repeat (split; [assumption|]).
  intros renders props' now' seg buf Hall Hn Ha.
  destruct (renders_while_paused renders paused Hall H1)
    as (R1 & R2 & R3 & R4 & R5 & _ & _).
  split; [congruence|]. split; [assumption|].
  cbn [step]. unfold togglePlayback.
  rewrite R1, R3, H5, Hn, (hasAudio_some seg Ha).
  rewrite (@playSegment_ready _ seg buf _ _ _ Ha). simpl.
  rewrite R4, H4. repeat split; reflexivity.
Qed.

Lemma pause_while_buffering_witness :
  isPlaying (step bufferingPlayer (EvToggle (sampleProps 1 5) 170%float))
  = false.
Proof.
  exact (proj1 (@pause_while_buffering (sampleProps 1 5) 170%float
                  bufferingPlayer eq_refl eq_refl)).
Defined.

(** X17.  Asking to play when the store has no audio at the cursor (the segment
    is not generated yet, or the cursor is past the last segment) starts
    nothing: the player takes the playing intent and buffers. *)
Theorem play_without_audio_buffers (props : Props) (now : float) (p : Player) :
  isPlaying p = false ->
  hasAudio (nth_error (segments (story props)) (currentSegmentIndex p)) = false ->
  let p' := step p (EvToggle props now) in
  isPlaying p' = true /\
  isBuffering p' = true /\
  sourceRef p' = sourceRef p /\
  currentSegmentIndex p' = currentSegmentIndex p /\
  segmentOffsetRef p' = segmentOffsetRef p.
Proof.
  intros Hp Ha. cbn [step]. unfold togglePlayback. rewrite Hp, Ha.
  simpl. repeat split; reflexivity.
Qed.

Lemma play_without_audio_buffers_witness :
  isBuffering (step initialPlayer (EvToggle (sampleProps 0 5) 0%float)) = true.
Proof.
  exact (proj1 (proj2 (@play_without_audio_buffers (sampleProps 0 5) 0%float
                         initialPlayer eq_refl eq_refl))).
Defined.

